(** * kube-netflow: the chord-diagram renderer of [main.go]

    A shallow embedding of [ChordDiagram.Plot], [pointOnCircle] and
    [drawChord].  The renderer talks to a gonum [draw.Canvas]; here every
    call it makes on the canvas is recorded, in order, in a log, and a Go
    run-time panic (index out of range) stops the run and keeps the log
    written so far.

    Go's [float64] is kept abstract behind the class [Float64], which lists
    exactly the operations the renderer uses.  Two instances are given:
    - [binary64]: IEEE 754 binary64 through Rocq's primitive floats, the
      arithmetic the compiled program runs (without fused multiply-add, as on
      amd64);
    - [exact]: the real numbers, the arithmetic the formulas of the
      specification are written in.
    [math.Cos] and [math.Sin] belong to Go's library and are taken as a
    second interface, [Trig]. *)

From Stdlib Require Import ZArith List String Ascii Bool Lia.
From Stdlib Require Import QArith Qreals Reals Lra.
From Stdlib Require Import Floats.
Import ListNotations.
Close Scope Q_scope.
Close Scope R_scope.
Close Scope float_scope.

Set Implicit Arguments.

(** ** Numbers *)

(** What [fmt.Sprintf("%.1f", x)] needs to know of [x]: not a number, an
    infinity, or the sign bit and [|x| * 10] rounded to the nearest integer,
    ties to even (strconv rounds the exact decimal expansion). *)
Inductive decimal1 : Type :=
| DNaN
| DInf (neg : bool)
| DFin (neg : bool) (tenths : Z).

Class Float64 (F : Type) : Type := {
  fadd : F -> F -> F;
  fsub : F -> F -> F;
  fmul : F -> F -> F;
  fdiv : F -> F -> F;
  (** [x < y], [x > y] and [x == y] of Go *)
  fltb : F -> F -> bool;
  fgtb : F -> F -> bool;
  feqb : F -> F -> bool;
  (** [math.Min] *)
  fmin : F -> F -> F;
  (** the conversion [float64(i)] of an [int] *)
  of_int : Z -> F;
  (** an untyped rational constant of the source converted to [float64] *)
  fconst : Q -> F;
  (** the constant expressions [math.Pi], [2 * math.Pi], [math.Pi/2] and
      [3*math.Pi/2]: Go evaluates each exactly, then converts once *)
  pi : F;
  two_pi : F;
  half_pi : F;
  three_half_pi : F;
  round_tenths : F -> decimal1
}.

Class Trig (F : Type) : Type := {
  fcos : F -> F;
  fsin : F -> F
}.

(** ** Go's fmt: [%.1f] *)

Definition digit_char (d : Z) : ascii :=
  ascii_of_nat (48 + Z.to_nat d).

(** Decimal digits of a non-negative integer, most significant first; [fuel]
    bounds the number of digits. *)
Fixpoint digits_aux (fuel : nat) (n : Z) (acc : string) : string :=
  match fuel with
  | O => acc
  | S fuel' =>
      let acc' := String (digit_char (n mod 10)) acc in
      if (n / 10 =? 0)%Z then acc' else digits_aux fuel' (n / 10) acc'
  end.

Definition digits (n : Z) : string :=
  digits_aux (S (Z.to_nat (Z.log2 n))) n EmptyString.

Definition format_1f (d : decimal1) : string :=
  match d with
  | DNaN => "NaN"
  | DInf false => "+Inf"
  | DInf true => "-Inf"
  | DFin neg t =>
      ((if neg then "-" else "") ++ digits (t / 10) ++ "."
         ++ String (digit_char (t mod 10)) EmptyString)%string
  end.

(** [fmt.Sprintf("%.1f MB", x)] *)
Definition sprintf_1f_MB {F} `{Float64 F} (x : F) : string :=
  (format_1f (round_tenths x) ++ " MB")%string.

(** ** image/color *)

(** The two implementations of [color.Color] the program uses:
    [color.RGBA] (channels are [uint8]) and [color.Gray16] ([color.Black]). *)
Inductive color_Color : Type :=
| color_RGBA (r g b a : Z)
| color_Gray16 (y : Z).

Definition color_Black : color_Color := color_Gray16 0.

(** [color.RGBAModel.Convert]: a [color.RGBA] is returned as it is; any other
    colour through its 16-bit channels, each shifted right by 8. *)
Definition RGBAModel_Convert (c : color_Color) : Z * Z * Z * Z :=
  match c with
  | color_RGBA r g b a => (r, g, b, a)
  | color_Gray16 y => (Z.shiftr y 8, Z.shiftr y 8, Z.shiftr y 8, Z.shiftr 65535 8)
  end.

(** ** vg and draw: points, paths, text styles, canvas calls *)

Section Canvas.
Variable F : Type.

Record Point : Type := mkPoint { X : F; Y : F }.

(** [vg.PathComp]: what [Path.Move], [Path.Arc] and [Path.CubeTo] append. *)
Inductive PathComp : Type :=
| MoveComp (pos : Point)
| ArcComp (pos : Point) (radius start angle : F)
| CurveComp (ctrl1 ctrl2 pos : Point).

Definition Path : Type := list PathComp.

Inductive XAlignment : Type := XLeft | XCenter | XRight.
Inductive YAlignment : Type := YTop | YCenter | YBottom.

(** [draw.TextStyle].  The font face and the text handler are the library's
    defaults throughout and are left out; the size is kept. *)
Record TextStyle : Type := mkTextStyle {
  tsColor : color_Color;
  tsFontSize : F;
  tsRotation : F;
  tsXAlign : XAlignment;
  tsYAlign : YAlignment
}.

(** A call on the canvas. *)
Inductive CanvasOp : Type :=
| SetLineWidth (w : F)
| SetColor (c : color_Color)
| Stroke (p : Path)
| FillText (sty : TextStyle) (pt : Point) (txt : string).

(** What a run leaves behind: canvas calls, and one mark for every
    evaluation of the quotient [c.Flow[i][j] / maxFlow] (line 138). *)
Inductive Event : Type :=
| Draw (op : CanvasOp)
| WeightDiv (num den : F).

(** [draw.Canvas]: a [vg.Canvas] with the rectangle it covers. *)
Record Canvas : Type := mkCanvas { Min : Point; Max : Point }.

End Canvas.

Arguments MoveComp {F}.
Arguments ArcComp {F}.
Arguments CurveComp {F}.
Arguments SetLineWidth {F}.
Arguments SetColor {F}.
Arguments Stroke {F}.
Arguments FillText {F}.
Arguments Draw {F}.
Arguments WeightDiv {F}.

(** [Rectangle.Size] *)
Definition Size {F} `{Float64 F} (c : Canvas F) : Point F :=
  {| X := fsub (X (Max c)) (X (Min c)); Y := fsub (Y (Max c)) (Y (Min c)) |}.

(** [Canvas.Center]: the middle of the rectangle.  [Plot] does not call it. *)
Definition Center {F} `{Float64 F} (c : Canvas F) : Point F :=
  {| X := fadd (fdiv (fsub (X (Max c)) (X (Min c))) (fconst 2)) (X (Min c));
     Y := fadd (fdiv (fsub (Y (Max c)) (Y (Min c))) (fconst 2)) (Y (Min c)) |}.

(** ** Runs: a log of events, and a result or a panic *)

Inductive PanicValue : Type :=
| IndexOutOfRange (index len : nat).

Inductive outcome (A : Type) : Type :=
| Done (a : A)
| Panic (p : PanicValue).

Arguments Done {A}.
Arguments Panic {A}.

Definition M (F A : Type) : Type := list (Event F) * outcome A.

Definition ret {F A} (a : A) : M F A := ([], Done a).

Definition bind {F A B} (m : M F A) (k : A -> M F B) : M F B :=
  match m with
  | (log, Done a) => let (log', r) := k a in (log ++ log', r)
  | (log, Panic p) => (log, Panic p)
  end.

Definition emit {F} (op : CanvasOp F) : M F unit := ([Draw op], Done tt).

Definition mark_div {F} (num den : F) : M F unit := ([WeightDiv num den], Done tt).

Definition panic {F A} (p : PanicValue) : M F A := ([], Panic p).

Declare Scope go_scope.
Delimit Scope go_scope with go.
Notation "x <- m ;; k" := (bind m (fun x => k))
  (at level 61, m at next level, right associativity) : go_scope.
Notation "m ;;; k" := (bind m (fun _ => k))
  (at level 61, right associativity) : go_scope.

(** [xs[i]], with the bounds check of the Go run time *)
Definition index {F A} (xs : list A) (i : nat) : M F A :=
  match nth_error xs i with
  | Some x => ret x
  | None => panic (IndexOutOfRange i (List.length xs))
  end.

(** A loop whose body updates the variables [s] it assigns. *)
Fixpoint for_each {F A S} (xs : list A) (body : A -> S -> M F S) (s : S) : M F S :=
  match xs with
  | [] => ret s
  | x :: xs' => bind (body x s) (for_each xs' body)
  end.

(** [for i := 0; i < n; i++] and [for i := range xs] both run [i] over
    [0, 1, ..., n-1]. *)
Definition upto (n : nat) : list nat := seq 0 n.

Definition log_of {F A} (m : M F A) : list (Event F) := fst m.
Definition outcome_of {F A} (m : M F A) : outcome A := snd m.

(** The canvas calls of a log, in order. *)
Fixpoint draw_ops {F} (log : list (Event F)) : list (CanvasOp F) :=
  match log with
  | [] => []
  | Draw op :: log' => op :: draw_ops log'
  | WeightDiv _ _ :: log' => draw_ops log'
  end.

(** The quotients [c.Flow[i][j] / maxFlow] a log records. *)
Fixpoint weight_divs {F} (log : list (Event F)) : list (F * F) :=
  match log with
  | [] => []
  | Draw _ :: log' => weight_divs log'
  | WeightDiv x y :: log' => (x, y) :: weight_divs log'
  end.

(** ** The renderer *)

Section Renderer.
Context {F : Type} {num : Float64 F} {trig : Trig F}.

Local Open Scope go_scope.

(** [type ChordDiagram struct].  [Labels] is [None] for the nil slice.
    [Color] is a pure function value that is not nil. *)
Record ChordDiagram : Type := mkChordDiagram {
  Flow : list (list F);
  Labels : option (list string);
  Color : Z -> Z -> color_Color
}.

(** lines 145-150 *)
Definition pointOnCircle (origin : Point F) (radius angle : F) : Point F :=
  {| X := fadd (X origin) (fmul radius (fcos angle));
     Y := fadd (Y origin) (fmul radius (fsin angle)) |}.

(** lines 152-179.  The alpha channel: [rgba.A] is a [uint8], so
    [float64(rgba.A)+100] and its minimum with 255 are exact and the
    conversion back to [uint8] loses nothing. *)
Definition drawChord (origin : Point F) (radius : F) (i j n : Z) (weight : F)
    (clr : color_Color) : M F unit :=
  let angleStep := fdiv two_pi (of_int n) in
  let angle1 := fmul (of_int i) angleStep in
  let angle2 := fmul (of_int j) angleStep in
  let start := pointOnCircle origin radius angle1 in
  let end_ := pointOnCircle origin radius angle2 in
  let ctrl1 :=
    {| X := fadd (X origin) (fmul (fmul radius (fconst 0.5)) (fcos angle1));
       Y := fadd (Y origin) (fmul (fmul radius (fconst 0.5)) (fsin angle1)) |} in
  let ctrl2 :=
    {| X := fadd (X origin) (fmul (fmul radius (fconst 0.5)) (fcos angle2));
       Y := fadd (Y origin) (fmul (fmul radius (fconst 0.5)) (fsin angle2)) |} in
  let path := [MoveComp start; CurveComp ctrl1 ctrl2 end_] in
  emit (SetLineWidth (fmul weight (fconst 3))) ;;;
  let '(r, g, b, a) := RGBAModel_Convert clr in
  emit (SetColor (color_RGBA r g b (Z.min 255 (a + 100)))) ;;;
  emit (Stroke path).

(** [c.Flow[i][j]]: two checked accesses *)
Definition Flow_at (c : ChordDiagram) (i j : nat) : M F F :=
  row <- index (Flow c) i ;;
  index row j.

(** The body of the loop of lines 73-124; the two label styles are the
    variables it assigns and carries to the next round. *)
Definition Plot_node (c : ChordDiagram) (origin : Point F) (radius : F)
    (n : nat) (angleStep : F) (i : nat)
    (styles : TextStyle F * TextStyle F) : M F (TextStyle F * TextStyle F) :=
  let '(baseLabelStyle, outerLabelStyle) := styles in
  let angle := fmul (of_int (Z.of_nat i)) angleStep in
  let startAngle := fsub angle (fdiv angleStep (fconst 3)) in
  let endAngle := fadd angle (fdiv angleStep (fconst 3)) in
  let path := [MoveComp (pointOnCircle origin radius startAngle);
               ArcComp origin radius startAngle (fsub endAngle startAngle)] in
  emit (SetLineWidth (fconst 2)) ;;;
  emit (SetColor (color_RGBA 100 100 100 255)) ;;;
  emit (Stroke path) ;;;
  match Labels c with
  | None => ret (baseLabelStyle, outerLabelStyle)
  | Some labels =>
      let baseAngle := angle in
      let basePos := pointOnCircle origin (fmul radius (fconst 1.07)) baseAngle in
      let baseRotation :=
        if fgtb baseAngle half_pi && fltb baseAngle three_half_pi
        then fadd baseAngle pi else baseAngle in
      let baseLabelStyle :=
        {| tsColor := tsColor baseLabelStyle;
           tsFontSize := tsFontSize baseLabelStyle;
           tsRotation := baseRotation;
           tsXAlign := XCenter;
           tsYAlign := YCenter |} in
      let bgBaseStyle :=
        {| tsColor := color_RGBA 255 255 255 220;
           tsFontSize := tsFontSize baseLabelStyle;
           tsRotation := tsRotation baseLabelStyle;
           tsXAlign := tsXAlign baseLabelStyle;
           tsYAlign := tsYAlign baseLabelStyle |} in
      l <- index labels i ;;
      emit (FillText bgBaseStyle basePos l) ;;;
      l <- index labels i ;;
      emit (FillText baseLabelStyle basePos l) ;;;
      let labelAngle := angle in
      let labelRotation :=
        if fgtb labelAngle half_pi && fltb labelAngle three_half_pi
        then fadd (fadd labelAngle half_pi) pi else fadd labelAngle half_pi in
      totalBytes <- for_each (upto n)
                      (fun j totalBytes =>
                         x <- Flow_at c i j ;;
                         ret (fadd totalBytes x))
                      (fconst 0) ;;
      let statsLabel :=
        sprintf_1f_MB (fdiv (fdiv totalBytes (fconst 1024)) (fconst 1024)) in
      let labelPos := pointOnCircle origin (fmul radius (fconst 1.15)) angle in
      let outerLabelStyle :=
        {| tsColor := tsColor outerLabelStyle;
           tsFontSize := tsFontSize outerLabelStyle;
           tsRotation := labelRotation;
           tsXAlign := XCenter;
           tsYAlign := YCenter |} in
      let bgStyle :=
        {| tsColor := color_RGBA 255 255 255 220;
           tsFontSize := tsFontSize outerLabelStyle;
           tsRotation := tsRotation outerLabelStyle;
           tsXAlign := tsXAlign outerLabelStyle;
           tsYAlign := tsYAlign outerLabelStyle |} in
      emit (FillText bgStyle labelPos statsLabel) ;;;
      emit (FillText outerLabelStyle labelPos statsLabel) ;;;
      ret (baseLabelStyle, outerLabelStyle)
  end.

(** lines 126-133 *)
Definition Plot_maxFlow (c : ChordDiagram) : M F F :=
  for_each (upto (List.length (Flow c)))
    (fun i maxFlow =>
       row <- index (Flow c) i ;;
       for_each (upto (List.length row))
         (fun j maxFlow =>
            x <- Flow_at c i j ;;
            if fgtb x maxFlow then Flow_at c i j else ret maxFlow)
         maxFlow)
    (fconst 0).

(** lines 135-142 *)
Definition Plot_chords (c : ChordDiagram) (origin : Point F) (radius : F)
    (n : nat) (maxFlow : F) : M F unit :=
  for_each (upto (List.length (Flow c)))
    (fun i (_ : unit) =>
       row <- index (Flow c) i ;;
       for_each (upto (List.length row))
         (fun j (_ : unit) =>
            x <- Flow_at c i j ;;
            if fgtb x (fconst 0) then
              y <- Flow_at c i j ;;
              mark_div y maxFlow ;;;
              let weight := fdiv y maxFlow in
              drawChord origin radius (Z.of_nat i) (Z.of_nat j) (Z.of_nat n)
                weight (Color c (Z.of_nat i) (Z.of_nat j))
            else ret tt)
         tt)
    tt.

Definition plot_origin (canvas : Canvas F) : Point F :=
  {| X := fdiv (X (Size canvas)) (fconst 2);
     Y := fdiv (Y (Size canvas)) (fconst 2) |}.

Definition plot_radius (canvas : Canvas F) : F :=
  fmul (fmin (X (Size canvas)) (Y (Size canvas))) (fconst 0.35).

(** The zero [draw.TextStyle] with [Color: color.Black] and the font size
    set to 12 (lines 57-71). *)
Definition initial_style : TextStyle F :=
  {| tsColor := color_Black;
     tsFontSize := fconst 12;
     tsRotation := fconst 0;
     tsXAlign := XLeft;
     tsYAlign := YBottom |}.

(** lines 50-143 *)
Definition Plot (c : ChordDiagram) (canvas : Canvas F) : M F unit :=
  let origin := plot_origin canvas in
  let radius := plot_radius canvas in
  let n := List.length (Flow c) in
  let angleStep := fdiv two_pi (of_int (Z.of_nat n)) in
  let outerLabelStyle := initial_style in
  let baseLabelStyle := initial_style in
  _ <- for_each (upto n) (Plot_node c origin radius n angleStep)
         (baseLabelStyle, outerLabelStyle) ;;
  maxFlow <- Plot_maxFlow c ;;
  Plot_chords c origin radius n maxFlow.

End Renderer.

Arguments ChordDiagram F : clear implicits.

(** ** IEEE 754 binary64 *)

Module Binary64.

(** [float64(i)] for an [int], a 64-bit integer: [of_uint63] converts a
    magnitude below [2^63], rounding to nearest; [-2^63] is the one [int]
    whose magnitude is not below [2^63]. *)
Definition b64_of_int (z : Z) : float :=
  if (z =? -9223372036854775808)%Z then PrimFloat.opp 0x1p+63%float
  else if (z <? 0)%Z
  then PrimFloat.opp (PrimFloat.of_uint63 (Uint63.of_Z (- z)))
  else PrimFloat.of_uint63 (Uint63.of_Z z).

(** Numerator and denominator of the constants of [main.go] are small
    integers, exact in binary64, and IEEE division rounds to nearest: the
    quotient is the [float64] the Go compiler converts the constant to. *)
Definition b64_const (q : Q) : float :=
  PrimFloat.div (b64_of_int (Qnum q)) (b64_of_int (Zpos (Qden q))).

(** [math.Min], with its special cases *)
Definition math_Min (x y : float) : float :=
  if PrimFloat.eqb x neg_infinity || PrimFloat.eqb y neg_infinity then neg_infinity
  else if is_nan x || is_nan y then nan
  else if PrimFloat.eqb x zero && PrimFloat.eqb x y
       then (if get_sign x then x else y)
  else if PrimFloat.ltb x y then x else y.

(** Round half to even of the quotient [num / den], [0 <= num], [0 < den]. *)
Definition round_half_even (num den : Z) : Z :=
  let q := (num / den)%Z in
  let r := (num mod den)%Z in
  match (2 * r ?= den)%Z with
  | Lt => q
  | Gt => (q + 1)%Z
  | Eq => if Z.even q then q else (q + 1)%Z
  end.

Definition b64_round_tenths (x : float) : decimal1 :=
  match Prim2SF x with
  | S754_nan => DNaN
  | S754_infinity s => DInf s
  | S754_zero s => DFin s 0
  | S754_finite s m e =>
      if (0 <=? e)%Z
      then DFin s (Zpos m * 10 * 2 ^ e)
      else DFin s (round_half_even (Zpos m * 10) (2 ^ (- e)))
  end.

#[global] Instance binary64 : Float64 float := {|
  fadd := PrimFloat.add;
  fsub := PrimFloat.sub;
  fmul := PrimFloat.mul;
  fdiv := PrimFloat.div;
  fltb := PrimFloat.ltb;
  fgtb := fun x y => PrimFloat.ltb y x;
  feqb := PrimFloat.eqb;
  fmin := math_Min;
  of_int := b64_of_int;
  fconst := b64_const;
  pi := 0x1.921fb54442d18p+1%float;
  two_pi := 0x1.921fb54442d18p+2%float;
  half_pi := 0x1.921fb54442d18p+0%float;
  three_half_pi := 0x1.2d97c7f3321d2p+2%float;
  round_tenths := b64_round_tenths
|}.

End Binary64.

(** ** Exact arithmetic: the real numbers *)

Module Exact.

Definition Rltb (x y : R) : bool := if Rlt_dec x y then true else false.
Definition Reqb (x y : R) : bool := if Req_dec_T x y then true else false.

Definition R_round_tenths (x : R) : decimal1 :=
  let t := (Rabs x * 10)%R in
  let k := Int_part t in
  let f := frac_part t in
  DFin (Rltb x 0)
    (if Rltb f (1 / 2) then k
     else if Rltb (1 / 2) f then (k + 1)%Z
     else if Z.even k then k else (k + 1)%Z).

#[global] Instance exact : Float64 R := {|
  fadd := Rplus;
  fsub := Rminus;
  fmul := Rmult;
  fdiv := Rdiv;
  fltb := Rltb;
  fgtb := fun x y => Rltb y x;
  feqb := Reqb;
  fmin := Rmin;
  of_int := IZR;
  fconst := Q2R;
  pi := PI;
  two_pi := (2 * PI)%R;
  half_pi := (PI / 2)%R;
  three_half_pi := (3 * PI / 2)%R;
  round_tenths := R_round_tenths
|}.

#[global] Instance exact_trig : Trig R := {| fcos := cos; fsin := sin |}.

End Exact.

(** ** Inputs used below *)

(** The colour function [main] passes: [uint8(30 * i)] wraps modulo 256. *)
Definition main_Color (i j : Z) : color_Color :=
  color_RGBA ((30 * i) mod 256) ((30 * j) mod 256) 255 200.

Definition square_canvas {F} `{Float64 F} (side : Z) : Canvas F :=
  {| Min := {| X := of_int 0; Y := of_int 0 |};
     Max := {| X := of_int side; Y := of_int side |} |}.

Definition matrix_of_ints {F} `{Float64 F} (rows : list (list Z)) : list (list F) :=
  map (map of_int) rows.

(** Three nodes, flows 0->1 of 100 and 1->2 of 50. *)
Definition three_nodes {F} `{Float64 F} : ChordDiagram F :=
  {| Flow := matrix_of_ints [[0; 100; 0]; [0; 0; 50]; [0; 0; 0]]%Z;
     Labels := Some ["A"; "B"; "C"]%string;
     Color := main_Color |}.

(** Two nodes and no flow at all. *)
Definition two_idle_nodes {F} `{Float64 F} : ChordDiagram F :=
  {| Flow := matrix_of_ints [[0; 0]; [0; 0]]%Z;
     Labels := Some ["A"; "B"]%string;
     Color := main_Color |}.

(** One node, no labels. *)
Definition single_node {F} `{Float64 F} : ChordDiagram F :=
  {| Flow := matrix_of_ints [[0]]%Z;
     Labels := None;
     Color := main_Color |}.

(** No node. *)
Definition no_node {F} `{Float64 F} : ChordDiagram F :=
  {| Flow := [];
     Labels := Some [];
     Color := main_Color |}.

(** One node, a matrix row that is too short. *)
Definition short_row {F} `{Float64 F} : ChordDiagram F :=
  {| Flow := [[]];
     Labels := Some ["A"]%string;
     Color := main_Color |}.

(** One node, a label slice that is too short. *)
Definition short_labels {F} `{Float64 F} : ChordDiagram F :=
  {| Flow := matrix_of_ints [[0]]%Z;
     Labels := Some [];
     Color := main_Color |}.

(** The canvas of side 100 moved to the corner (10, 10). *)
Definition moved_canvas {F} `{Float64 F} : Canvas F :=
  {| Min := {| X := of_int 10; Y := of_int 10 |};
     Max := {| X := of_int 110; Y := of_int 110 |} |}.

(** [three_nodes] with the colour function written another way. *)
Definition three_nodes' {F} `{Float64 F} : ChordDiagram F :=
  {| Flow := matrix_of_ints [[0; 100; 0]; [0; 0; 50]; [0; 0; 0]]%Z;
     Labels := Some ["A"; "B"; "C"]%string;
     Color := fun i j => main_Color (i + 0) (j + 0) |}.

(** One node that sends 5 to itself, in exact arithmetic. *)
Definition self_flow_node : ChordDiagram R :=
  {| Flow := [[5%R]]; Labels := None; Color := main_Color |}.

(** Two nodes; the flows out of node 0 are the two smallest positive
    [float64] values, the flow 1->0 is about 1e308. *)
Definition tiny_flows : ChordDiagram float :=
  {| Flow := [[0x1p-1074; 0x1p-1073]; [0x1.1ccf385ebc8ap+1023; 0]]%float;
     Labels := Some ["A"; "B"]%string;
     Color := main_Color |}.

(** A hundred nodes with labels and no flow, in binary64. *)
Definition hundred_nodes : ChordDiagram float :=
  {| Flow := repeat (repeat 0%float 100) 100;
     Labels := Some (repeat "node"%string 100);
     Color := main_Color |}.

(** Two nodes that send to each other, in exact arithmetic. *)
Definition two_way : ChordDiagram R :=
  {| Flow := [[0%R; 100%R]; [50%R; 0%R]]; Labels := None; Color := main_Color |}.

(** ** [main]: from the buckets of the response to the diagram

    Lines 296-338 and 357-363 of [main].  The response of the search is taken after the
    type assertions of lines 296-333: a list of source buckets, each with its
    key and its destination buckets, each of those with its key and the sum of
    bytes. *)

Record DestBucket (F : Type) : Type := mkDestBucket {
  dest_key : string;
  dest_bytes : F
}.

Record SourceBucket (F : Type) : Type := mkSourceBucket {
  source_key : string;
  destinations : list (DestBucket F)
}.

(** [map[string]int], as an association list with distinct keys. *)
Definition NodeMap : Type := list (string * nat).

(** [v, exists := m[k]] *)
Fixpoint map_get (m : NodeMap) (k : string) : option nat :=
  match m with
  | [] => None
  | (k', v) :: m' => if String.eqb k' k then Some v else map_get m' k
  end.

(** [m[k]] where the key may be missing: the zero value then *)
Definition map_index (m : NodeMap) (k : string) : nat :=
  match map_get m k with
  | Some v => v
  | None => 0
  end.

(** [m[k] = v] *)
Definition map_set (m : NodeMap) (k : string) (v : nat) : NodeMap :=
  (k, v) :: filter (fun kv => negb (String.eqb (fst kv) k)) m.

(** [len(m)] *)
Definition map_len (m : NodeMap) : nat := List.length m.

(** Lines 303-306 and 311-314: give an address the next index, unless it has
    one. *)
Definition add_node (ip : string) (st : NodeMap * list string)
    : NodeMap * list string :=
  let '(nodes, names) := st in
  match map_get nodes ip with
  | Some _ => (nodes, names)
  | None => (map_set nodes ip (map_len nodes), names ++ [ip])
  end.

(** Lines 298-316 *)
Definition index_nodes {F} (buckets : list (SourceBucket F))
    : NodeMap * list string :=
  fold_left
    (fun st bucket =>
       fold_left (fun st destBucket => add_node (dest_key destBucket) st)
         (destinations bucket)
         (add_node (source_key bucket) st))
    buckets ([], []).

(** [l[n] = v] on a list, where [n] is in range *)
Fixpoint list_set {A} (n : nat) (v : A) (l : list A) : list A :=
  match l, n with
  | [], _ => []
  | _ :: l', O => v :: l'
  | x :: l', S n' => x :: list_set n' v l'
  end.

(** [flow[i][j] = v], with the bounds checks of the Go run time *)
Definition set_entry {F} (flow : list (list F)) (i j : nat) (v : F)
    : outcome (list (list F)) :=
  match nth_error flow i with
  | None => Panic (IndexOutOfRange i (List.length flow))
  | Some row =>
      if j <? List.length row
      then Done (list_set i (list_set j v row) flow)
      else Panic (IndexOutOfRange j (List.length row))
  end.

Definition obind {A B} (m : outcome A) (k : A -> outcome B) : outcome B :=
  match m with
  | Done a => k a
  | Panic p => Panic p
  end.

Fixpoint ofold {A S} (xs : list A) (body : A -> S -> outcome S) (s : S)
    : outcome S :=
  match xs with
  | [] => Done s
  | x :: xs' => obind (body x s) (ofold xs' body)
  end.

(** Lines 318-322: [size] rows of [size] zeros *)
Definition zero_matrix {F} `{Float64 F} (size : nat) : list (list F) :=
  repeat (repeat (fconst 0) size) size.

(** Lines 324-338 *)
Definition fill_flow {F} (nodes : NodeMap) (buckets : list (SourceBucket F))
    (flow : list (list F)) : outcome (list (list F)) :=
  ofold buckets
    (fun bucket flow =>
       let sourceIdx := map_index nodes (source_key bucket) in
       ofold (destinations bucket)
         (fun destBucket flow =>
            let destIdx := map_index nodes (dest_key destBucket) in
            set_entry flow sourceIdx destIdx (dest_bytes destBucket))
         flow)
    flow.

(** Lines 298-338 and 357-363: the diagram [main] adds to the plot.  [names] is the nil
    slice until the first [append]. *)
Definition main_diagram {F} `{Float64 F} (buckets : list (SourceBucket F))
    : outcome (ChordDiagram F) :=
  let '(nodes, names) := index_nodes buckets in
  let size := map_len nodes in
  obind (fill_flow nodes buckets (zero_matrix size))
    (fun flow =>
       Done {| Flow := flow;
               Labels := match names with [] => None | _ => Some names end;
               Color := main_Color |}).

(** The addresses of the response in the order the loops of lines 301-316
    meet them. *)
Definition keys_in_order {F} (buckets : list (SourceBucket F)) : list string :=
  flat_map (fun b => source_key b :: map (@dest_key F) (destinations b)) buckets.

(** The distinct elements of a list, each at its first occurrence. *)
Definition first_occurrences (keys : list string) : list string :=
  rev (nodup string_dec (rev keys)).

(** The flows of the response in order: source, destination, bytes. *)
Definition flows_in_order {F} (buckets : list (SourceBucket F))
    : list (string * string * F) :=
  flat_map (fun b => map (fun d => (source_key b, dest_key d, dest_bytes d))
                       (destinations b))
    buckets.

(** The bytes of the last flow from [s] to [t] in a list of flows. *)
Fixpoint last_bytes {F} (flows : list (string * string * F)) (s t : string)
    : option F :=
  match flows with
  | [] => None
  | (s', t', v) :: flows' =>
      match last_bytes flows' s t with
      | Some w => Some w
      | None => if String.eqb s' s && String.eqb t' t then Some v else None
      end
  end.

(** [flow[i][j]] when both indices are in range *)
Definition entry {F} (flow : list (list F)) (i j : nat) : option F :=
  match nth_error flow i with
  | Some row => nth_error row j
  | None => None
  end.

(** What lines 298-316 keep between [nodes] and [names]: [nodes] sends an
    address to its position in [names], no address is listed twice, and the
    two have the same size. *)
Definition nodes_agree (st : NodeMap * list string) : Prop :=
  (forall k i, map_get (fst st) k = Some i <-> nth_error (snd st) i = Some k)
  /\ NoDup (snd st)
  /\ map_len (fst st) = List.length (snd st).

(** A matrix of [n] rows of [n] entries. *)
Definition shape {F} (n : nat) (flow : list (list F)) : Prop :=
  List.length flow = n /\ Forall (fun row => List.length row = n) flow.

(** A response with two source buckets and three addresses. *)
Definition small_response : list (SourceBucket float) :=
  [ {| source_key := "10.0.0.1";
       destinations := [ {| dest_key := "10.0.0.2"; dest_bytes := 100%float |};
                         {| dest_key := "10.0.0.3"; dest_bytes := 0%float |} ] |};
    {| source_key := "10.0.0.2";
       destinations := [ {| dest_key := "10.0.0.1"; dest_bytes := 50%float |} ] |} ].

(** The diagram [main] builds from it. *)
Definition small_diagram : ChordDiagram float :=
  {| Flow := [[0; 100; 0]; [50; 0; 0]; [0; 0; 0]]%float;
     Labels := Some ["10.0.0.1"; "10.0.0.2"; "10.0.0.3"]%string;
     Color := main_Color |}.

(** ** [cidrToRange]: from a CIDR block to the range of its addresses

    Lines 21-35.  [net.ParseCIDR] and [net.IP.String] belong to Go's library
    and are parameters here; addresses and masks are the byte slices of
    [net.IP] and [net.IPMask], a byte being a number from 0 to 255. *)

(** [net.IPNet]: the bytes of the address and of the mask *)
Record IPNet : Type := mkIPNet {
  IP : list Z;
  Mask : list Z
}.

(** How a call can end: it returns, [log.Fatalf] ends the program, or the
    run time panics. *)
Inductive ending (A : Type) : Type :=
| Returns (a : A)
| Fatalf (message : string)
| Panics (p : PanicValue).

Arguments Returns {A}.
Arguments Fatalf {A}.
Arguments Panics {A}.

(** [^b] on a [byte] *)
Definition byte_not (b : Z) : Z := Z.lxor b 255.

(** Lines 30-32: [for i := range broadcast { broadcast[i] |= ^ipNet.Mask[i] }] *)
Definition broadcast_loop (mask : list Z) (broadcast : list Z)
    : outcome (list Z) :=
  ofold (upto (List.length broadcast))
    (fun i broadcast =>
       match nth_error broadcast i with
       | None => Panic (IndexOutOfRange i (List.length broadcast))
       | Some b =>
           match nth_error mask i with
           | None => Panic (IndexOutOfRange i (List.length mask))
           | Some m => Done (list_set i (Z.lor b (byte_not m)) broadcast)
           end
       end)
    broadcast.

Section CidrToRange.

(** [net.ParseCIDR], of which only the network is used ([None] is an error),
    and [net.IP.String]. *)
Variable ParseCIDR : string -> option IPNet.
Variable IP_String : list Z -> string.

(** Lines 21-35 *)
Definition cidrToRange (cidr : string) : ending (string * string) :=
  match ParseCIDR cidr with
  | None => Fatalf ("Invalid CIDR notation: " ++ cidr)
  | Some ipNet =>
      let network := IP ipNet in
      let broadcast := network in
      match broadcast_loop (Mask ipNet) broadcast with
      | Panic p => Panics p
      | Done broadcast => Returns (IP_String network, IP_String broadcast)
      end
  end.

End CidrToRange.

(** The number a big-endian sequence of bytes stands for. *)
Definition be_step (acc b : Z) : Z := (acc * 256 + b)%Z.

Definition be_value (bytes : list Z) : Z := fold_left be_step bytes 0%Z.

Definition is_byte (b : Z) : Prop := (0 <= b < 256)%Z.

(** [ipNet.Contains(ip)] for an address of the length of the network:
    the address and the network agree under the mask. *)
Definition in_network (ipNet : IPNet) (ip : list Z) : Prop :=
  map (fun am => Z.land (fst am) (snd am)) (combine ip (Mask ipNet))
  = map (fun nm => Z.land (fst nm) (snd nm)) (combine (IP ipNet) (Mask ipNet)).

(** What [net.ParseCIDR] returns for a prefix of [8 * len - host_bits] bits:
    address and mask of the same length, the mask with ones in front of
    [host_bits] zeros, the address with its host bits cleared. *)
Definition is_prefix_network (host_bits : Z) (ipNet : IPNet) : Prop :=
  List.length (Mask ipNet) = List.length (IP ipNet)
  /\ Forall is_byte (IP ipNet)
  /\ Forall is_byte (Mask ipNet)
  /\ (0 <= host_bits <= 8 * Z.of_nat (List.length (IP ipNet)))%Z
  /\ be_value (Mask ipNet)
     = (2 ^ (8 * Z.of_nat (List.length (IP ipNet))) - 2 ^ host_bits)%Z
  /\ (be_value (IP ipNet) mod 2 ^ host_bits = 0)%Z.

(** Stand-ins for the two library functions, for a run on one block:
    dotted decimal, and a parser that knows [192.168.16.0/20]. *)
Definition dotted (ip : list Z) : string := String.concat "." (map digits ip).

Definition office_network : IPNet :=
  {| IP := [192; 168; 16; 0]%Z; Mask := [255; 255; 240; 0]%Z |}.

Definition parse_office (cidr : string) : option IPNet :=
  if String.eqb cidr "192.168.16.0/20" then Some office_network else None.

(** ** What a run draws, in closed form

    The functions of this section describe the log of a run that does not
    panic; the theorems below prove that [Plot] produces exactly them. *)

Section Layout.
Context {F : Type} {num : Float64 F} {trig : Trig F}.

Definition angleStep (n : nat) : F := fdiv two_pi (of_int (Z.of_nat n)).

Definition centerAngle (n i : nat) : F :=
  fmul (of_int (Z.of_nat i)) (angleStep n).

Definition arcStart (n i : nat) : F :=
  fsub (centerAngle n i) (fdiv (angleStep n) (fconst 3)).

Definition arcEnd (n i : nat) : F :=
  fadd (centerAngle n i) (fdiv (angleStep n) (fconst 3)).

Definition arc_path (canvas : Canvas F) (n i : nat) : Path F :=
  [MoveComp (pointOnCircle (plot_origin canvas) (plot_radius canvas) (arcStart n i));
   ArcComp (plot_origin canvas) (plot_radius canvas) (arcStart n i)
     (fsub (arcEnd n i) (arcStart n i))].

Definition arc_ops (canvas : Canvas F) (n i : nat) : list (CanvasOp F) :=
  [SetLineWidth (fconst 2);
   SetColor (color_RGBA 100 100 100 255);
   Stroke (arc_path canvas n i)].

(** The test of lines 90 and 104. *)
Definition in_left_half (a : F) : bool :=
  fgtb a half_pi && fltb a three_half_pi.

Definition identity_rotation (n i : nat) : F :=
  if in_left_half (centerAngle n i)
  then fadd (centerAngle n i) pi else centerAngle n i.

Definition volume_rotation (n i : nat) : F :=
  if in_left_half (centerAngle n i)
  then fadd (fadd (centerAngle n i) half_pi) pi
  else fadd (centerAngle n i) half_pi.

Definition backplate : color_Color := color_RGBA 255 255 255 220.

Definition label_style (clr : color_Color) (rotation : F) : TextStyle F :=
  {| tsColor := clr;
     tsFontSize := fconst 12;
     tsRotation := rotation;
     tsXAlign := XCenter;
     tsYAlign := YCenter |}.

Definition identity_pos (canvas : Canvas F) (n i : nat) : Point F :=
  pointOnCircle (plot_origin canvas) (fmul (plot_radius canvas) (fconst 1.07))
    (centerAngle n i).

Definition volume_pos (canvas : Canvas F) (n i : nat) : Point F :=
  pointOnCircle (plot_origin canvas) (fmul (plot_radius canvas) (fconst 1.15))
    (centerAngle n i).

(** The sum of the first [n] entries of a row, added from the left starting
    at 0, as the loop of lines 108-111 does. *)
Definition row_total (n : nat) (row : list F) : F :=
  fold_left fadd (firstn n row) (fconst 0).

Definition volume_text (n : nat) (row : list F) : string :=
  sprintf_1f_MB (fdiv (fdiv (row_total n row) (fconst 1024)) (fconst 1024)).

Definition label_ops (canvas : Canvas F) (n i : nat) (label : string)
    (row : list F) : list (CanvasOp F) :=
  [FillText (label_style backplate (identity_rotation n i))
     (identity_pos canvas n i) label;
   FillText (label_style color_Black (identity_rotation n i))
     (identity_pos canvas n i) label;
   FillText (label_style backplate (volume_rotation n i))
     (volume_pos canvas n i) (volume_text n row);
   FillText (label_style color_Black (volume_rotation n i))
     (volume_pos canvas n i) (volume_text n row)].

Definition node_ops (c : ChordDiagram F) (canvas : Canvas F) (i : nat)
    : list (CanvasOp F) :=
  let n := List.length (Flow c) in
  arc_ops canvas n i ++
  match Labels c with
  | None => []
  | Some labels =>
      label_ops canvas n i (nth i labels EmptyString) (nth i (Flow c) [])
  end.

(** The value of [maxFlow] after the loops of lines 126-133. *)
Definition maxFlow (c : ChordDiagram F) : F :=
  fold_left
    (fun m row => fold_left (fun m x => if fgtb x m then x else m) row m)
    (Flow c) (fconst 0).

Definition chord_width (weight : F) : F := fmul weight (fconst 3).

Definition chord_color (clr : color_Color) : color_Color :=
  let '(r, g, b, a) := RGBAModel_Convert clr in
  color_RGBA r g b (Z.min 255 (a + 100)).

Definition chord_path (canvas : Canvas F) (n i j : nat) : Path F :=
  let origin := plot_origin canvas in
  let radius := plot_radius canvas in
  [MoveComp (pointOnCircle origin radius (centerAngle n i));
   CurveComp
     {| X := fadd (X origin) (fmul (fmul radius (fconst 0.5)) (fcos (centerAngle n i)));
        Y := fadd (Y origin) (fmul (fmul radius (fconst 0.5)) (fsin (centerAngle n i))) |}
     {| X := fadd (X origin) (fmul (fmul radius (fconst 0.5)) (fcos (centerAngle n j)));
        Y := fadd (Y origin) (fmul (fmul radius (fconst 0.5)) (fsin (centerAngle n j))) |}
     (pointOnCircle origin radius (centerAngle n j))].

Definition chord_ops (c : ChordDiagram F) (canvas : Canvas F) (i j : nat) (x : F)
    : list (CanvasOp F) :=
  [SetLineWidth (chord_width (fdiv x (maxFlow c)));
   SetColor (chord_color (Color c (Z.of_nat i) (Z.of_nat j)));
   Stroke (chord_path canvas (List.length (Flow c)) i j)].

(** The elements of a list with their indices, counted from [a]. *)
Definition enumerate_from {A} (a : nat) (xs : list A) : list (nat * A) :=
  combine (seq a (List.length xs)) xs.

(** The entries [(i, j, Flow[i][j])] in the order the loops of lines 127-128
    and 135-136 visit them. *)
Definition entries (c : ChordDiagram F) : list (nat * nat * F) :=
  flat_map (fun ir => map (fun jx => (fst ir, fst jx, snd jx))
                        (enumerate_from 0 (snd ir)))
           (enumerate_from 0 (Flow c)).

Definition positive_entries (c : ChordDiagram F) : list (nat * nat * F) :=
  filter (fun e => fgtb (snd e) (fconst 0)) (entries c).

Definition chord_events (c : ChordDiagram F) (canvas : Canvas F)
    (e : nat * nat * F) : list (Event F) :=
  WeightDiv (snd e) (maxFlow c)
    :: map Draw (chord_ops c canvas (fst (fst e)) (snd (fst e)) (snd e)).

(** The log of a run that does not panic. *)
Definition Plot_log (c : ChordDiagram F) (canvas : Canvas F) : list (Event F) :=
  map Draw (flat_map (node_ops c canvas) (upto (List.length (Flow c))))
  ++ flat_map (chord_events c canvas) (positive_entries c).

(** *** Shape of the input *)

(** Every row has as many entries as there are rows. *)
Definition square (c : ChordDiagram F) : Prop :=
  Forall (fun row => List.length row = List.length (Flow c)) (Flow c).

(** [Labels] is nil or has a label for every node. *)
Definition labels_cover (c : ChordDiagram F) : Prop :=
  match Labels c with
  | None => True
  | Some labels => List.length (Flow c) <= List.length labels
  end.

(** [Labels] is nil or has exactly one label per node. *)
Definition labels_match (c : ChordDiagram F) : Prop :=
  match Labels c with
  | None => True
  | Some labels => List.length labels = List.length (Flow c)
  end.

(** Every row has at least as many entries as there are rows. *)
Definition rows_cover (c : ChordDiagram F) : Prop :=
  Forall (fun row => List.length (Flow c) <= List.length row) (Flow c).

Definition all_zero (c : ChordDiagram F) : Prop :=
  Forall (Forall (fun x => feqb x (fconst 0) = true)) (Flow c).

(** What the label styles keep from round to round. *)
Definition style_ok (st : TextStyle F * TextStyle F) : Prop :=
  (tsColor (fst st) = color_Black /\ tsFontSize (fst st) = fconst 12) /\
  (tsColor (snd st) = color_Black /\ tsFontSize (snd st) = fconst 12).

(** The shapes the specification calls invalid. *)
Definition invalid_shape (c : ChordDiagram F) : Prop :=
  ~ square c \/ ~ labels_match c \/
  List.length (Flow c) = 0 \/ List.length (Flow c) = 1.

(** A run that fails and has drawn nothing. *)
Definition rejects_before_drawing {A} (m : M F A) : Prop :=
  (exists p, outcome_of m = Panic p) /\ draw_ops (log_of m) = [].

(** *** Kinds of canvas calls *)

Definition is_curve (pc : PathComp F) : bool :=
  match pc with CurveComp _ _ _ => true | _ => false end.

Definition is_arc (pc : PathComp F) : bool :=
  match pc with ArcComp _ _ _ _ => true | _ => false end.

Definition is_chord_stroke (op : CanvasOp F) : bool :=
  match op with Stroke p => existsb is_curve p | _ => false end.

Definition is_arc_stroke (op : CanvasOp F) : bool :=
  match op with Stroke p => existsb is_arc p | _ => false end.

Definition is_label_fill (op : CanvasOp F) : bool :=
  match op with FillText _ _ _ => true | _ => false end.

(** Events of the node loop: no chord stroke, no quotient.  Events of the
    chord loop: no arc stroke, no text. *)
Definition node_event (e : Event F) : Prop :=
  match e with
  | Draw op => is_chord_stroke op = false
  | WeightDiv _ _ => False
  end.

Definition chord_event (e : Event F) : Prop :=
  match e with
  | Draw op => is_arc_stroke op = false /\ is_label_fill op = false
  | WeightDiv _ _ => True
  end.

End Layout.

(** What the properties below use of the comparisons: a value equal to 0
    ([x == 0]) is not greater than 0. *)
Class Float64Laws (F : Type) {num : Float64 F} : Prop := {
  zero_not_positive :
    forall x : F, feqb x (fconst 0) = true -> fgtb x (fconst 0) = false
}.

Arguments Float64Laws F {num}.

(** What the maximum loop uses of [>]: it is irreflexive and transitive; a
    value not above
    the old maximum is not above a new, larger one; only numbers (values with
    [x == x], so not NaN) are above anything; and a number that a positive
    value does not exceed is positive. *)
Class Float64Order (F : Type) {num : Float64 F} : Prop := {
  gt_irrefl : forall x : F, fgtb x x = false;
  gt_max_step :
    forall y m x : F, fgtb y m = false -> fgtb x m = true -> fgtb y x = false;
  gt_trans :
    forall x y z : F, fgtb x y = true -> fgtb y z = true -> fgtb x z = true;
  gt_is_number : forall a b : F, fgtb a b = true -> feqb a a = true;
  zero_is_number : feqb (fconst 0 : F) (fconst 0) = true;
  gt_dominated :
    forall x z m : F,
      fgtb x z = true -> fgtb x m = false -> feqb m m = true ->
      fgtb m z = true
}.

Arguments Float64Order F {num}.

(** In binary64, for [n] nodes: consecutive centre angles increase, every arc
    has its start before its end, and every arc ends before the next one
    starts. *)
Definition b64_layout_ok (n : nat) : bool :=
  forallb
    (fun i =>
       PrimFloat.ltb (centerAngle n i) (centerAngle n (S i))
       && PrimFloat.ltb (arcStart n i) (arcEnd n i)
       && PrimFloat.ltb (arcEnd n i) (arcStart n (S i)))
    (seq 0 (n - 1)).

(** The widths of the chords grow strictly with the flows. *)
Definition width_strictly_increasing {F} `{Float64 F} (c : ChordDiagram F) : Prop :=
  forall i j x i' j' x',
    In (i, j, x) (positive_entries c) ->
    In (i', j', x') (positive_entries c) ->
    fltb x x' = true ->
    fltb (chord_width (fdiv x (maxFlow c))) (chord_width (fdiv x' (maxFlow c)))
    = true.

(** * Properties *)

(** ** The run monad and its loops *)

Section Runs.
Context {F : Type}.

Lemma bind_ret_l {A B} (a : A) (k : A -> M F B) : bind (ret a) k = k a.
Proof. unfold bind, ret. destruct (k a); reflexivity. Qed.

Lemma bind_done {A B} (m : M F A) (k : A -> M F B) log a log' r :
  m = (log, Done a) -> k a = (log', r) -> bind m k = (log ++ log', r).
Proof. intros -> Hk. unfold bind. rewrite Hk. reflexivity. Qed.

Lemma bind_emit {B} (op : CanvasOp F) (k : unit -> M F B) :
  bind (emit op) k = (Draw op :: log_of (k tt), outcome_of (k tt)).
Proof. unfold bind, emit, log_of, outcome_of. destruct (k tt); reflexivity. Qed.

Lemma bind_mark_div {B} (x y : F) (k : unit -> M F B) :
  bind (mark_div x y) k = (WeightDiv x y :: log_of (k tt), outcome_of (k tt)).
Proof. unfold bind, mark_div, log_of, outcome_of. destruct (k tt); reflexivity. Qed.

Lemma log_of_bind {A B} (m : M F A) (k : A -> M F B) :
  log_of (bind m k) =
  log_of m ++ match outcome_of m with
              | Done a => log_of (k a)
              | Panic _ => []
              end.
Proof.
  destruct m as [log [a | p]]; unfold bind, log_of; simpl.
  - destruct (k a); reflexivity.
  - now rewrite app_nil_r.
Qed.

Lemma index_some {A} {xs : list A} {i x} :
  nth_error xs i = Some x -> index (F:=F) xs i = ret x.
Proof. unfold index. now intros ->. Qed.

Lemma index_log {A} (xs : list A) i : log_of (index (F:=F) xs i) = [].
Proof. unfold index. destruct (nth_error xs i); reflexivity. Qed.

(** Loops with bodies that agree on the elements visited are equal. *)
Lemma for_each_ext {A S} (xs : list A) (body body' : A -> S -> M F S) s :
  (forall x s, In x xs -> body x s = body' x s) ->
  for_each xs body s = for_each xs body' s.
Proof.
  revert s. induction xs as [| x xs IH]; intros s Hext; simpl.
  - reflexivity.
  - rewrite (Hext x s (or_introl eq_refl)).
    destruct (body' x s) as [log [s' | p]]; simpl; [| reflexivity].
    rewrite IH; [reflexivity |]. intros; apply Hext; now right.
Qed.

(** Every event of a loop is an event of one of its rounds. *)
Lemma for_each_log_Forall {A S} (P : Event F -> Prop) (xs : list A)
    (body : A -> S -> M F S) s :
  (forall x s, Forall P (log_of (body x s))) ->
  Forall P (log_of (for_each xs body s)).
Proof.
  intros Hbody. revert s. induction xs as [| x xs IH]; intros s; simpl.
  - constructor.
  - rewrite log_of_bind. apply Forall_app. split; [apply Hbody |].
    destruct (outcome_of (body x s)); [apply IH | constructor].
Qed.

(** A loop whose rounds never panic, write a log that depends on the element
    only and keep an invariant of the loop variables. *)
Lemma for_each_inv_log {A S} (I : S -> Prop) (lg : A -> list (Event F))
    (xs : list A) (body : A -> S -> M F S) s :
  (forall x s, In x xs -> I s -> exists s', body x s = (lg x, Done s') /\ I s') ->
  I s ->
  exists s', for_each xs body s = (flat_map lg xs, Done s') /\ I s'.
Proof.
  revert s. induction xs as [| x xs IH]; intros s Hbody Hs; simpl.
  - exists s. split; [reflexivity | assumption].
  - destruct (Hbody x s (or_introl eq_refl) Hs) as (s1 & Hx & Hs1).
    destruct (IH s1) as (s2 & Hrest & Hs2); [| assumption |].
    + intros y t Hy. apply Hbody. now right.
    + exists s2. split; [| assumption].
      now apply bind_done with (a := s1).
Qed.

(** A loop over the indices of [xs] whose round [a + k] reads [xs[k]] and
    computes without drawing. *)
Lemma for_each_range_pure {A S} (h : A -> S -> S) (xs : list A) a
    (body : nat -> S -> M F S) s :
  (forall k x s, nth_error xs k = Some x -> body (a + k) s = ret (h x s)) ->
  for_each (seq a (List.length xs)) body s
  = ret (fold_left (fun s x => h x s) xs s).
Proof.
  revert a s. induction xs as [| x xs IH]; intros a s Hbody; simpl.
  - reflexivity.
  - specialize (Hbody 0 x s eq_refl) as H0. rewrite Nat.add_0_r in H0.
    rewrite H0, bind_ret_l. apply IH.
    intros k y t Hk.
    replace (Datatypes.S a + k) with (a + Datatypes.S k) by lia.
    now apply Hbody.
Qed.

(** A loop over the indices of [xs] whose round [a + k] reads [xs[k]] and
    writes a log that depends on the index and the element only. *)
Lemma for_each_range_log {A} (lg : nat -> A -> list (Event F)) (xs : list A) a
    (body : nat -> unit -> M F unit) :
  (forall k x, nth_error xs k = Some x ->
               body (a + k) tt = (lg (a + k) x, Done tt)) ->
  for_each (seq a (List.length xs)) body tt
  = (flat_map (fun ix => lg (fst ix) (snd ix)) (enumerate_from a xs), Done tt).
Proof.
  revert a. induction xs as [| x xs IH]; intros a Hbody; simpl.
  - reflexivity.
  - specialize (Hbody 0 x eq_refl) as H0. rewrite Nat.add_0_r in H0.
    apply bind_done with (a := tt); [exact H0 |].
    apply IH. intros k y Hk. replace (Datatypes.S a + k) with (a + Datatypes.S k) by lia.
    now apply Hbody.
Qed.

Lemma draw_ops_app (l1 l2 : list (Event F)) :
  draw_ops (l1 ++ l2) = draw_ops l1 ++ draw_ops l2.
Proof.
  induction l1 as [| [op | x y] l1 IH]; simpl; [reflexivity | |];
    now rewrite IH.
Qed.

Lemma draw_ops_map_Draw (ops : list (CanvasOp F)) : draw_ops (map Draw ops) = ops.
Proof. induction ops as [| op ops IH]; simpl; [reflexivity | now rewrite IH]. Qed.

Lemma weight_divs_app (l1 l2 : list (Event F)) :
  weight_divs (l1 ++ l2) = weight_divs l1 ++ weight_divs l2.
Proof.
  induction l1 as [| [op | x y] l1 IH]; simpl; [reflexivity | |];
    now rewrite IH.
Qed.

Lemma weight_divs_map_Draw (ops : list (CanvasOp F)) :
  weight_divs (map Draw ops) = [].
Proof. induction ops as [| op ops IH]; simpl; [reflexivity | exact IH]. Qed.

End Runs.

(** ** The three phases of [Plot] *)

Section Phases.
Context {F : Type} {num : Float64 F} {trig : Trig F}.

Lemma Flow_at_some {c : ChordDiagram F} {i j row x} :
  nth_error (Flow c) i = Some row -> nth_error row j = Some x ->
  Flow_at c i j = ret x.
Proof.
  intros Hi Hj. unfold Flow_at.
  rewrite (index_some Hi), bind_ret_l. now apply index_some.
Qed.

Lemma Flow_at_log (c : ChordDiagram F) i j : log_of (Flow_at c i j) = [].
Proof.
  unfold Flow_at. rewrite log_of_bind, index_log.
  destruct (outcome_of _); [apply index_log | reflexivity].
Qed.

(** The maximum loops read inside the matrix only and leave [maxFlow]. *)
Lemma Plot_maxFlow_run (c : ChordDiagram F) : Plot_maxFlow c = ret (maxFlow c).
Proof.
  unfold Plot_maxFlow, maxFlow, upto.
  apply for_each_range_pure
    with (h := fun row m => fold_left (fun m x => if fgtb x m then x else m) row m).
  intros i row m Hi. simpl.
  rewrite (index_some Hi), bind_ret_l.
  apply for_each_range_pure with (h := fun x m => if fgtb x m then x else m).
  intros j x m' Hj. simpl.
  rewrite (Flow_at_some Hi Hj), bind_ret_l.
  destruct (fgtb x m'); reflexivity.
Qed.

Lemma drawChord_run (c : ChordDiagram F) (canvas : Canvas F) i j x :
  drawChord (plot_origin canvas) (plot_radius canvas) (Z.of_nat i) (Z.of_nat j)
    (Z.of_nat (List.length (Flow c))) (fdiv x (maxFlow c))
    (Color c (Z.of_nat i) (Z.of_nat j))
  = (map Draw (chord_ops c canvas i j x), Done tt).
Proof.
  unfold drawChord, chord_ops, chord_color, chord_path, chord_width,
    centerAngle, angleStep.
  destruct (RGBAModel_Convert _) as [[[r g] b] a].
  reflexivity.
Qed.

Lemma flat_map_filter {A B} (p : A -> bool) (f : A -> list B) (xs : list A) :
  flat_map f (filter p xs) = flat_map (fun x => if p x then f x else []) xs.
Proof.
  induction xs as [| x xs IH]; simpl; [reflexivity |].
  destruct (p x); simpl; now rewrite IH.
Qed.

Lemma flat_map_flat_map {A B C} (f : A -> list B) (g : B -> list C) (xs : list A) :
  flat_map g (flat_map f xs) = flat_map (fun x => flat_map g (f x)) xs.
Proof.
  induction xs as [| x xs IH]; simpl; [reflexivity |].
  now rewrite flat_map_app, IH.
Qed.

Lemma flat_map_map {A B C} (f : A -> B) (g : B -> list C) (xs : list A) :
  flat_map g (map f xs) = flat_map (fun x => g (f x)) xs.
Proof.
  induction xs as [| x xs IH]; simpl; [reflexivity | now rewrite IH].
Qed.

(** The chord loops read inside the matrix only, and draw one chord for every
    positive entry, in row-major order. *)
Lemma Plot_chords_run (c : ChordDiagram F) (canvas : Canvas F) :
  Plot_chords c (plot_origin canvas) (plot_radius canvas)
    (List.length (Flow c)) (maxFlow c)
  = (flat_map (chord_events c canvas) (positive_entries c), Done tt).
Proof.
  unfold Plot_chords, upto, positive_entries, entries.
  rewrite flat_map_filter, flat_map_flat_map.
  apply for_each_range_log
    with (lg := fun i row =>
                  flat_map (fun e => if fgtb (snd e) (fconst 0)
                                     then chord_events c canvas e else [])
                    (map (fun jx => (i, fst jx, snd jx)) (enumerate_from 0 row))).
  intros i row Hi. cbv beta. change (0 + i) with i.
  rewrite (index_some Hi), bind_ret_l, flat_map_map.
  apply for_each_range_log
    with (lg := fun j x => if fgtb x (fconst 0)
                           then chord_events c canvas (i, j, x) else []).
  intros j x Hj. cbv beta. change (0 + j) with j.
  rewrite (Flow_at_some Hi Hj), bind_ret_l.
  destruct (fgtb x (fconst 0)); [| reflexivity].
  rewrite bind_ret_l, bind_mark_div, drawChord_run.
  reflexivity.
Qed.

Lemma Plot_node_nil (c : ChordDiagram F) (canvas : Canvas F) i st :
  Labels c = None ->
  Plot_node c (plot_origin canvas) (plot_radius canvas) (List.length (Flow c))
    (angleStep (List.length (Flow c))) i st
  = (map Draw (node_ops c canvas i), Done st).
Proof.
  intros Hnil. unfold Plot_node, node_ops. destruct st as [b o].
  rewrite Hnil. reflexivity.
Qed.

(** The row-sum loop of lines 109-111 on a row that is long enough. *)
Lemma row_total_run {c : ChordDiagram F} {i row n} :
  nth_error (Flow c) i = Some row -> n <= List.length row ->
  for_each (upto n)
    (fun j totalBytes => bind (Flow_at c i j) (fun x => ret (fadd totalBytes x)))
    (fconst 0)
  = ret (row_total n row).
Proof.
  intros Hi Hn. unfold upto, row_total.
  rewrite <- (firstn_length_le row Hn) at 1.
  apply for_each_range_pure with (h := fun x t => fadd t x).
  intros j x t Hj. simpl.
  assert (Hj' : nth_error row j = Some x).
  { destruct (Nat.lt_ge_cases j n) as [Hlt | Hge].
    - now rewrite nth_error_firstn, (proj2 (Nat.ltb_lt j n) Hlt) in Hj.
    - assert (nth_error (firstn n row) j = None); [| congruence].
      apply nth_error_None. rewrite firstn_length_le; assumption. }
  now rewrite (Flow_at_some Hi Hj'), bind_ret_l.
Qed.

Lemma Plot_node_labels (c : ChordDiagram F) (canvas : Canvas F) i st labels l row :
  Labels c = Some labels ->
  nth_error labels i = Some l ->
  nth_error (Flow c) i = Some row ->
  List.length (Flow c) <= List.length row ->
  style_ok st ->
  exists st',
    Plot_node c (plot_origin canvas) (plot_radius canvas) (List.length (Flow c))
      (angleStep (List.length (Flow c))) i st
    = (map Draw (node_ops c canvas i), Done st') /\ style_ok st'.
Proof.
  intros Hlabels Hl Hrow Hlen [[Hbc Hbf] [Hoc Hof]].
  destruct st as [b o]. simpl in Hbc, Hbf, Hoc, Hof.
  unfold Plot_node, node_ops. rewrite Hlabels.
  rewrite (nth_error_nth _ _ EmptyString Hl), (nth_error_nth _ _ [] Hrow).
  cbv beta iota zeta.
  cbn [tsColor tsFontSize tsRotation tsXAlign tsYAlign].
  rewrite Hbc, Hbf, Hoc, Hof.
  rewrite (index_some Hl), !bind_ret_l.
  rewrite (row_total_run Hrow Hlen), bind_ret_l.
  eexists. split; [reflexivity |].
  repeat split; reflexivity.
Qed.

Lemma map_flat_map_Draw {A} (f : A -> list (CanvasOp F)) (xs : list A) :
  flat_map (fun x => map Draw (f x)) xs = map Draw (flat_map f xs).
Proof.
  induction xs as [| x xs IH]; simpl; [reflexivity |].
  now rewrite map_app, IH.
Qed.

Lemma initial_style_ok : style_ok (initial_style, initial_style).
Proof. repeat split; reflexivity. Qed.

Lemma square_rows_cover (c : ChordDiagram F) : square c -> rows_cover c.
Proof.
  unfold square, rows_cover. apply Forall_impl. intros row ->. apply Nat.le_refl.
Qed.

(** The node loop of a run whose accesses are all in range. *)
Lemma Plot_nodes_run (c : ChordDiagram F) (canvas : Canvas F) :
  Labels c = None \/ (rows_cover c /\ labels_cover c) ->
  exists st,
    for_each (upto (List.length (Flow c)))
      (Plot_node c (plot_origin canvas) (plot_radius canvas)
         (List.length (Flow c)) (angleStep (List.length (Flow c))))
      (initial_style, initial_style)
    = (map Draw (flat_map (node_ops c canvas) (upto (List.length (Flow c)))),
       Done st).
Proof.
  intros Hwf.
  destruct (@for_each_inv_log F _ _ style_ok
              (fun i => map Draw (node_ops c canvas i))
              (upto (List.length (Flow c)))
              (Plot_node c (plot_origin canvas) (plot_radius canvas)
                 (List.length (Flow c)) (angleStep (List.length (Flow c))))
              (initial_style, initial_style))
    as (st & Hrun & _).
  - intros i st Hi Hst. apply in_seq in Hi. destruct Hi as [_ Hi]. simpl in Hi.
    destruct Hwf as [Hnil | [Hrows Hlabels]].
    + exists st. split; [now apply Plot_node_nil | assumption].
    + destruct (nth_error (Flow c) i) as [row |] eqn:Hrow;
        [| apply nth_error_None in Hrow; lia].
      unfold labels_cover in Hlabels.
      destruct (Labels c) as [labels |] eqn:Hl;
        [| exists st; split; [now apply Plot_node_nil | assumption]].
      destruct (nth_error labels i) as [l |] eqn:Hli;
        [| apply nth_error_None in Hli; lia].
      apply Plot_node_labels with (labels := labels) (l := l) (row := row);
        try assumption.
      unfold rows_cover in Hrows. rewrite Forall_forall in Hrows.
      apply Hrows. eapply nth_error_In; eassumption.
  - apply initial_style_ok.
  - exists st. rewrite Hrun. now rewrite map_flat_map_Draw.
Qed.

(** A run whose accesses are all in range returns, and its log is
    [Plot_log]. *)
Lemma Plot_run (c : ChordDiagram F) (canvas : Canvas F) :
  Labels c = None \/ (rows_cover c /\ labels_cover c) ->
  Plot c canvas = (Plot_log c canvas, Done tt).
Proof.
  intros Hwf. destruct (Plot_nodes_run canvas Hwf) as (st & Hnodes).
  unfold Plot, Plot_log.
  apply bind_done with (a := st); [exact Hnodes |].
  rewrite Plot_maxFlow_run, bind_ret_l. apply Plot_chords_run.
Qed.

End Phases.

(** ** Which phase writes which events *)

Section Kinds.
Context {F : Type} {num : Float64 F} {trig : Trig F}.

Lemma log_of_bind_emit {B} (op : CanvasOp F) (k : unit -> M F B) :
  log_of (bind (emit op) k) = Draw op :: log_of (k tt).
Proof. now rewrite bind_emit. Qed.

Lemma Forall_log_bind {A B} (P : Event F -> Prop) (m : M F A) (k : A -> M F B) :
  Forall P (log_of m) -> (forall a, Forall P (log_of (k a))) ->
  Forall P (log_of (bind m k)).
Proof.
  intros Hm Hk. rewrite log_of_bind. apply Forall_app. split; [assumption |].
  destruct (outcome_of m); [apply Hk | constructor].
Qed.

Lemma Forall_log_emit {B} (P : Event F -> Prop) (op : CanvasOp F)
    (k : unit -> M F B) :
  P (Draw op) -> Forall P (log_of (k tt)) -> Forall P (log_of (bind (emit op) k)).
Proof. intros Hop Hk. rewrite log_of_bind_emit. now constructor. Qed.

Lemma Forall_log_index {A B} (P : Event F -> Prop) (xs : list A) i
    (k : A -> M F B) :
  (forall a, Forall P (log_of (k a))) -> Forall P (log_of (bind (index xs i) k)).
Proof.
  intros Hk. apply Forall_log_bind; [| assumption].
  rewrite index_log. constructor.
Qed.

Lemma Plot_node_events (c : ChordDiagram F) origin radius n step i st :
  Forall node_event (log_of (Plot_node c origin radius n step i st)).
Proof.
  unfold Plot_node. destruct st as [b o].
  do 3 (apply Forall_log_emit; [reflexivity |]).
  destruct (Labels c) as [labels |]; [| constructor].
  apply Forall_log_index; intros l.
  apply Forall_log_emit; [reflexivity |].
  apply Forall_log_index; intros l'.
  apply Forall_log_emit; [reflexivity |].
  apply Forall_log_bind.
  - apply for_each_log_Forall. intros j t.
    apply Forall_log_bind; [rewrite Flow_at_log; constructor |].
    intros x. constructor.
  - intros total.
    do 2 (apply Forall_log_emit; [reflexivity |]).
    constructor.
Qed.

Lemma chord_events_kind (c : ChordDiagram F) canvas e :
  Forall chord_event (chord_events c canvas e).
Proof.
  unfold chord_events, chord_ops. simpl.
  repeat constructor.
Qed.

Lemma Forall_flat_map {A B} (P : B -> Prop) (f : A -> list B) (xs : list A) :
  (forall x, Forall P (f x)) -> Forall P (flat_map f xs).
Proof.
  intros Hf. induction xs as [| x xs IH]; simpl; [constructor |].
  apply Forall_app. split; [apply Hf | exact IH].
Qed.

(** The log of any run, panicking or not: events of the node loop, then
    events of the chord loop. *)
Lemma Plot_log_split (c : ChordDiagram F) (canvas : Canvas F) :
  exists l1 l2,
    log_of (Plot c canvas) = l1 ++ l2 /\
    Forall node_event l1 /\ Forall chord_event l2.
Proof.
  unfold Plot. rewrite log_of_bind.
  eexists. eexists. split; [reflexivity |]. split.
  - apply for_each_log_Forall. intros i st. apply Plot_node_events.
  - destruct (outcome_of _); [| constructor].
    rewrite Plot_maxFlow_run, bind_ret_l, Plot_chords_run. simpl.
    apply Forall_flat_map. intros e. apply chord_events_kind.
Qed.

Lemma draw_ops_Forall (P : Event F -> Prop) (Q : CanvasOp F -> Prop) log :
  (forall op, P (Draw op) -> Q op) ->
  Forall P log -> Forall Q (draw_ops log).
Proof.
  intros HPQ Hlog. induction Hlog as [| [op | x y] log Hx _ IH]; simpl.
  - constructor.
  - constructor; [now apply HPQ | exact IH].
  - exact IH.
Qed.

(** In [pre ++ post], an element that cannot be in [post] comes before one
    that cannot be in [pre]. *)
Lemma app_order {A} (P Q : A -> Prop) (pre post : list A) i j a b :
  Forall (fun x => ~ Q x) pre -> Forall (fun x => ~ P x) post ->
  nth_error (pre ++ post) i = Some a -> P a ->
  nth_error (pre ++ post) j = Some b -> Q b ->
  i < j.
Proof.
  intros Hpre Hpost Hi Ha Hj Hb.
  rewrite Forall_forall in Hpre, Hpost.
  destruct (Nat.lt_ge_cases i (List.length pre)) as [Hi' | Hi'].
  - destruct (Nat.lt_ge_cases j (List.length pre)) as [Hj' | Hj']; [| lia].
    rewrite nth_error_app1 in Hj by assumption.
    apply nth_error_In in Hj. now apply Hpre in Hj.
  - rewrite nth_error_app2 in Hi by assumption.
    apply nth_error_In in Hi. now apply Hpost in Hi.
Qed.

End Kinds.

(** ** The entries the chord loop visits *)

Section Entries.
Context {F : Type} {num : Float64 F} {trig : Trig F}.

Lemma enumerate_from_cons {A} a (x : A) xs :
  enumerate_from a (x :: xs) = (a, x) :: enumerate_from (S a) xs.
Proof. reflexivity. Qed.

Lemma In_enumerate_from {A} (xs : list A) a k x :
  In (k, x) (enumerate_from a xs) <-> a <= k /\ nth_error xs (k - a) = Some x.
Proof.
  revert a. induction xs as [| y xs IH]; intros a.
  - simpl. split; [tauto |]. intros [_ H]. now destruct (k - a).
  - rewrite enumerate_from_cons. simpl. rewrite IH. split.
    + intros [H | [Hle H]].
      * inversion H; subst. rewrite Nat.sub_diag. split; [lia | reflexivity].
      * split; [lia |]. replace (k - a) with (S (k - S a)) by lia. exact H.
    + intros [Hle H]. destruct (Nat.eq_dec a k) as [-> | Hne].
      * left. rewrite Nat.sub_diag in H. simpl in H. congruence.
      * right. split; [lia |].
        replace (k - a) with (S (k - S a)) in H by lia. exact H.
Qed.

(** [entries] lists exactly the entries of the matrix. *)
Lemma In_entries (c : ChordDiagram F) i j x :
  In (i, j, x) (entries c) <->
  exists row, nth_error (Flow c) i = Some row /\ nth_error row j = Some x.
Proof.
  unfold entries. rewrite in_flat_map. split.
  - intros [[i' row] [Hrow Hin]]. simpl in Hin.
    apply in_map_iff in Hin. destruct Hin as [[j' x'] [Heq Hin]].
    simpl in Heq. inversion Heq; subst.
    apply In_enumerate_from in Hrow. apply In_enumerate_from in Hin.
    rewrite Nat.sub_0_r in Hrow, Hin. exists row. tauto.
  - intros [row [Hrow Hx]]. exists (i, row). split.
    + apply In_enumerate_from. rewrite Nat.sub_0_r. split; [lia | assumption].
    + simpl. apply in_map_iff. exists (j, x). split; [reflexivity |].
      apply In_enumerate_from. rewrite Nat.sub_0_r. split; [lia | assumption].
Qed.

(** [positive_entries] lists exactly the entries with [Flow[i][j] > 0]. *)
Lemma In_positive_entries (c : ChordDiagram F) i j x :
  In (i, j, x) (positive_entries c) <->
  (exists row, nth_error (Flow c) i = Some row /\ nth_error row j = Some x) /\
  fgtb x (fconst 0) = true.
Proof.
  unfold positive_entries. rewrite filter_In, In_entries. reflexivity.
Qed.

Lemma draw_ops_chord_events (c : ChordDiagram F) canvas es :
  draw_ops (flat_map (chord_events c canvas) es)
  = flat_map (fun e => chord_ops c canvas (fst (fst e)) (snd (fst e)) (snd e)) es.
Proof.
  induction es as [| e es IH]; simpl; [reflexivity |].
  now rewrite IH.
Qed.

Lemma weight_divs_chord_events (c : ChordDiagram F) canvas es :
  weight_divs (flat_map (chord_events c canvas) es)
  = map (fun e => (snd e, maxFlow c)) es.
Proof.
  induction es as [| e es IH]; simpl; [reflexivity |].
  now rewrite IH.
Qed.

(** The canvas calls of a run that does not panic. *)
Lemma draw_ops_Plot_log (c : ChordDiagram F) canvas :
  draw_ops (Plot_log c canvas)
  = flat_map (node_ops c canvas) (upto (List.length (Flow c)))
    ++ flat_map (fun e => chord_ops c canvas (fst (fst e)) (snd (fst e)) (snd e))
         (positive_entries c).
Proof.
  unfold Plot_log.
  now rewrite draw_ops_app, draw_ops_map_Draw, draw_ops_chord_events.
Qed.

Lemma weight_divs_Plot_log (c : ChordDiagram F) canvas :
  weight_divs (Plot_log c canvas)
  = map (fun e => (snd e, maxFlow c)) (positive_entries c).
Proof.
  unfold Plot_log.
  now rewrite weight_divs_app, weight_divs_map_Draw, weight_divs_chord_events.
Qed.

End Entries.

(** ** Facts about the two arithmetics *)

(** The constants of [main.go] in binary64, bit for bit. *)
Lemma b64_constants :
  fconst 0.35 = 0x1.6666666666666p-2%float
  /\ fconst 1.07 = 0x1.11eb851eb851fp+0%float
  /\ fconst 1.15 = 0x1.2666666666666p+0%float
  /\ fconst 0.5 = 0x1p-1%float
  /\ fconst 1024 = 0x1p+10%float
  /\ fconst 12 = 0x1.8p+3%float
  /\ fconst 3 = 0x1.8p+1%float
  /\ fconst 2 = 0x1p+1%float
  /\ fconst 0 = 0%float.
Proof. vm_compute. repeat split; reflexivity. Qed.

Lemma Rltb_true (x y : R) : (x < y)%R -> Exact.Rltb x y = true.
Proof. intros H. unfold Exact.Rltb. now destruct (Rlt_dec x y). Qed.

Lemma Rltb_false (x y : R) : ~ (x < y)%R -> Exact.Rltb x y = false.
Proof. intros H. unfold Exact.Rltb. now destruct (Rlt_dec x y). Qed.

Lemma Rltb_iff (x y : R) : Exact.Rltb x y = true <-> (x < y)%R.
Proof.
  unfold Exact.Rltb. destruct (Rlt_dec x y); split; intros; try assumption;
    try reflexivity; try discriminate; contradiction.
Qed.

Lemma Reqb_iff (x y : R) : Exact.Reqb x y = true <-> x = y.
Proof.
  unfold Exact.Reqb. destruct (Req_dec_T x y); split; intros; try assumption;
    try reflexivity; try discriminate; contradiction.
Qed.

#[global] Instance exact_laws : Float64Laws R.
Proof.
  constructor. intros x H. apply Reqb_iff in H. subst x.
  apply Rltb_false. apply Rlt_irrefl.
Qed.

#[global] Instance binary64_laws : Float64Laws float.
Proof.
  constructor. intros x H. simpl in *.
  change (Binary64.b64_const 0) with 0%float in *.
  rewrite eqb_spec in H. rewrite ltb_spec.
  change (Prim2SF 0) with (S754_zero false) in *.
  destruct (Prim2SF x) as [[] | [] | | [] m e]; simpl in H;
    try discriminate H; reflexivity.
Qed.

Lemma Reqb_zero : Exact.Reqb (IZR 0) (Q2R 0) = true.
Proof. apply Reqb_iff. unfold Q2R. simpl. lra. Qed.

Lemma Q2R_zero : Q2R 0 = 0%R.
Proof. unfold Q2R. simpl. lra. Qed.

Lemma Q2R_3 : Q2R 3 = 3%R.
Proof. unfold Q2R. simpl. lra. Qed.


(** In exact arithmetic [round_tenths] yields an integer within one half of
    [|x| * 10]: the nearest tenth. *)
Lemma exact_round_tenths_nearest (x : R) :
  exists neg t,
    round_tenths x = DFin neg t
    /\ (Rabs (IZR t - Rabs x * 10) <= 1 / 2)%R.
Proof.
  change (round_tenths x) with (Exact.R_round_tenths x).
  unfold Exact.R_round_tenths.
  set (t := (Rabs x * 10)%R).
  destruct (base_fp t) as [Hge Hlt].
  assert (Hk : IZR (Int_part t) = (t - frac_part t)%R)
    by (unfold frac_part; lra).
  eexists. eexists. split; [reflexivity |].
  destruct (Exact.Rltb (frac_part t) (1 / 2)) eqn:H1.
  - apply Rltb_iff in H1. rewrite Hk. apply Rabs_le. lra.
  - destruct (Exact.Rltb (1 / 2) (frac_part t)) eqn:H2.
    + apply Rltb_iff in H2. rewrite plus_IZR, Hk. apply Rabs_le. lra.
    + assert (Hhalf : frac_part t = (1 / 2)%R).
      { assert (Hn1 : ~ (frac_part t < 1 / 2)%R)
          by (intros Hc; apply Rltb_iff in Hc; congruence).
        assert (Hn2 : ~ (1 / 2 < frac_part t)%R)
          by (intros Hc; apply Rltb_iff in Hc; congruence).
        lra. }
      destruct (Z.even (Int_part t)).
      * rewrite Hk. apply Rabs_le. lra.
      * rewrite plus_IZR, Hk. apply Rabs_le. lra.
Qed.





Lemma exact_angleStep_pos (n : nat) : 0 < n -> (0 < angleStep (F := R) n)%R.
Proof.
  intros Hn. unfold angleStep.
  change (fdiv two_pi (of_int (Z.of_nat n))) with (2 * PI / IZR (Z.of_nat n))%R.
  assert (Hpi := PI_RGT_0).
  assert (Hz : (0 < IZR (Z.of_nat n))%R) by (apply IZR_lt; lia).
  apply Rdiv_lt_0_compat; lra.
Qed.

Lemma exact_centerAngle (n i : nat) :
  centerAngle (F := R) n i = (INR i * angleStep n)%R.
Proof.
  unfold centerAngle.
  change (fmul ?a ?b) with (a * b)%R. change (of_int ?z) with (IZR z).
  now rewrite <- INR_IZR_INZ.
Qed.

Lemma exact_arcStart (n i : nat) :
  arcStart (F := R) n i = (INR i * angleStep n - angleStep n / 3)%R.
Proof.
  unfold arcStart. rewrite exact_centerAngle.
  change (fsub ?a ?b) with (a - b)%R. change (fdiv ?a ?b) with (a / b)%R.
  change (fconst 3) with (Q2R 3). now rewrite Q2R_3.
Qed.

Lemma exact_arcEnd (n i : nat) :
  arcEnd (F := R) n i = (INR i * angleStep n + angleStep n / 3)%R.
Proof.
  unfold arcEnd. rewrite exact_centerAngle.
  change (fadd ?a ?b) with (a + b)%R. change (fdiv ?a ?b) with (a / b)%R.
  change (fconst 3) with (Q2R 3). now rewrite Q2R_3.
Qed.

Lemma b64_layout_checked : forallb b64_layout_ok (seq 2 255) = true.
Proof. vm_compute. reflexivity. Qed.

Lemma fold_rows_concat {A B} (f : B -> A -> B) (rows : list (list A)) (m : B) :
  fold_left (fun m row => fold_left f row m) rows m
  = fold_left f (List.concat rows) m.
Proof.
  revert m. induction rows as [| row rows IH]; intros m; simpl; [reflexivity |].
  now rewrite fold_left_app, IH.
Qed.

Lemma In_concat_entries {F} {num : Float64 F} (c : ChordDiagram F) x :
  In x (List.concat (Flow c)) <-> exists i j, In (i, j, x) (entries c).
Proof.
  rewrite in_concat. split.
  - intros [row [Hrow Hx]].
    apply In_nth_error in Hrow. destruct Hrow as [i Hi].
    apply In_nth_error in Hx. destruct Hx as [j Hj].
    exists i, j. apply In_entries. now exists row.
  - intros (i & j & Hin). apply In_entries in Hin.
    destruct Hin as [row [Hrow Hx]]. exists row.
    split; eapply nth_error_In; eassumption.
Qed.

(** Whatever the arithmetic, [maxFlow] is 0 or one of the entries. *)
Lemma maxFlow_is_entry {F} {num : Float64 F} (c : ChordDiagram F) :
  maxFlow c = fconst 0 \/ exists i j, In (i, j, maxFlow c) (entries c).
Proof.
  unfold maxFlow. rewrite fold_rows_concat.
  assert (H : forall l m,
             fold_left (fun m x => if fgtb x m then x else m) l m = m
             \/ In (fold_left (fun m x => if fgtb x m then x else m) l m) l).
  { induction l as [| x l IH]; intros m; cbn [fold_left]; [now left |].
    destruct (IH (if fgtb x m then x else m)) as [Heq | Hin].
    - rewrite Heq. destruct (fgtb x m); [right; now left | now left].
    - right. now right. }
  destruct (H (List.concat (Flow c)) (fconst 0)) as [Heq | Hin]; [now left |].
  right. now apply In_concat_entries.
Qed.

(** In exact arithmetic the maximum loop computes a maximum. *)
Lemma exact_fold_max (l : list R) (m : R) :
  (m <= fold_left (fun m x => if fgtb x m then x else m) l m)%R
  /\ Forall (fun x =>
               (x <= fold_left (fun m x => if fgtb x m then x else m) l m)%R) l
  /\ (fold_left (fun m x => if fgtb x m then x else m) l m = m
      \/ In (fold_left (fun m x => if fgtb x m then x else m) l m) l).
Proof.
  revert m. induction l as [| x l IH]; intros m; cbn [fold_left].
  - split; [lra |]. split; [constructor | now left].
  - change (fgtb x m) with (Exact.Rltb m x).
    destruct (IH (if Exact.Rltb m x then x else m)) as (Hm & Hall & Hin).
    destruct (Exact.Rltb m x) eqn:Hlt.
    + apply Rltb_iff in Hlt. split; [lra |]. split.
      * constructor; assumption.
      * right. destruct Hin as [-> | Hin]; [now left | now right].
    + assert (Hn : ~ (m < x)%R) by (intros Hc; apply Rltb_iff in Hc; congruence).
      split; [lra |]. split.
      * constructor; [lra | assumption].
      * destruct Hin as [-> | Hin]; [now left | right; now right].
Qed.

Lemma exact_maxFlow_spec (c : ChordDiagram R) :
  (0 <= maxFlow c)%R
  /\ (forall i j x, In (i, j, x) (entries c) -> (x <= maxFlow c)%R)
  /\ (maxFlow c = 0%R \/ exists i j, In (i, j, maxFlow c) (entries c)).
Proof.
  unfold maxFlow. rewrite fold_rows_concat.
  destruct (exact_fold_max (List.concat (Flow c)) (fconst 0)) as (Hm & Hall & Hin).
  change (fconst 0) with (Q2R 0) in *. rewrite Q2R_zero in *.
  split; [exact Hm |]. split.
  - intros i j x Hx. rewrite Forall_forall in Hall. apply Hall.
    apply In_concat_entries. now exists i, j.
  - destruct Hin as [H0 | Hin]; [now left | right].
    now apply In_concat_entries.
Qed.

Lemma exact_positive_entry (c : ChordDiagram R) i j x :
  In (i, j, x) (positive_entries c) <-> In (i, j, x) (entries c) /\ (0 < x)%R.
Proof.
  unfold positive_entries. rewrite filter_In. simpl.
  change (fgtb x (fconst 0)) with (Exact.Rltb (Q2R 0) x).
  now rewrite Rltb_iff, Q2R_zero.
Qed.

Lemma exact_chord_width (w : R) : chord_width w = (w * 3)%R.
Proof.
  unfold chord_width. change (fmul w (fconst 3)) with (w * Q2R 3)%R.
  now rewrite Q2R_3.
Qed.

(** In exact arithmetic: with a positive entry, [maxFlow] is positive and is
    the largest entry, and the widths are positive, at most 3, equal to 3
    exactly at [maxFlow], and strictly increasing in the flow. *)
Lemma exact_widths (c : ChordDiagram R) :
  positive_entries c <> [] ->
  (0 < maxFlow c)%R
  /\ (forall i j x, In (i, j, x) (entries c) -> (x <= maxFlow c)%R)
  /\ (exists i j, In (i, j, maxFlow c) (positive_entries c))
  /\ (forall i j x,
        In (i, j, x) (positive_entries c) ->
        (0 < chord_width (fdiv x (maxFlow c)) <= 3)%R
        /\ (chord_width (fdiv x (maxFlow c)) = 3%R <-> x = maxFlow c))
  /\ width_strictly_increasing c.
Proof.
  intros Hne.
  destruct (exact_maxFlow_spec c) as (H0 & Hub & Hatt).
  assert (Hpos : (0 < maxFlow c)%R).
  { destruct (positive_entries c) as [| [[i j] x] rest] eqn:Hpe; [congruence |].
    assert (Hin : In (i, j, x) (positive_entries c)) by (rewrite Hpe; now left).
    apply exact_positive_entry in Hin. destruct Hin as [Hin Hx].
    specialize (Hub i j x Hin). lra. }
  split; [exact Hpos |]. split; [exact Hub |]. split; [| split].
  - destruct Hatt as [Hz | (i & j & Hin)]; [lra |].
    exists i, j. apply exact_positive_entry. now split.
  - intros i j x Hin. apply exact_positive_entry in Hin. destruct Hin as [Hin Hx].
    specialize (Hub i j x Hin). rewrite exact_chord_width.
    change (fdiv x (maxFlow c)) with (x / maxFlow c)%R.
    assert (Hq : (0 < x / maxFlow c <= 1)%R).
    { assert (Hinv : (0 < / maxFlow c)%R) by now apply Rinv_0_lt_compat.
      assert (Hone : (maxFlow c * / maxFlow c = 1)%R) by (apply Rinv_r; lra).
      unfold Rdiv. split; nra. }
    split; [lra |]. split.
    + intros Hw. assert (Hone : (x / maxFlow c = 1)%R) by lra.
      apply (Rmult_eq_compat_r (maxFlow c)) in Hone.
      unfold Rdiv in Hone. rewrite Rmult_assoc, Rinv_l in Hone; lra.
    + intros ->. unfold Rdiv. rewrite Rinv_r; lra.
  - intros i j x i' j' x' _ _ Hlt. apply Rltb_iff in Hlt. apply Rltb_iff.
    rewrite !exact_chord_width.
    change (fdiv ?a ?b) with (a / b)%R. unfold Rdiv.
    assert (Hinv : (0 < / maxFlow c)%R) by now apply Rinv_0_lt_compat.
    nra.
Qed.

(** Binary64 division of a finite non-zero mantissa by itself: the quotient
    of the integer division is [2^53], exactly. *)
Lemma SFdiv_core_self (m : positive) (e : Z) :
  SFdiv_core_binary prec emax (Zpos m) e (Zpos m) e
  = ((2 ^ 53)%Z, (-53)%Z, loc_Exact).
Proof.
  unfold SFdiv_core_binary.
  replace (Zdigits2 (Z.pos m) + e - (Zdigits2 (Z.pos m) + e))%Z with 0%Z by lia.
  rewrite Z.sub_diag.
  change (Z.min (fexp prec emax 0) 0) with (-53)%Z.
  change (0 - -53)%Z with 53%Z.
  cbv iota beta.
  rewrite Z.shiftl_mul_pow2 by lia.
  rewrite (surjective_pairing (Z.div_eucl (Z.pos m * 2 ^ 53) (Z.pos m))).
  change (fst (Z.div_eucl ?a ?b)) with (a / b)%Z.
  change (snd (Z.div_eucl ?a ?b)) with (a mod b)%Z.
  rewrite (Z.mul_comm (Z.pos m)), Z.div_mul, Z.mod_mul by lia.
  unfold new_location. destruct (Z.even (Z.pos m)); reflexivity.
Qed.

(** In binary64, [x / x] is exactly 1 for every positive finite [x]. *)
Lemma b64_div_self (x : float) :
  PrimFloat.ltb 0 x = true -> PrimFloat.ltb x infinity = true ->
  PrimFloat.div x x = 1%float.
Proof.
  intros Hpos Hfin.
  rewrite <- (SF2Prim_Prim2SF (PrimFloat.div x x)), div_spec.
  rewrite ltb_spec in Hpos, Hfin.
  destruct (Prim2SF x) as [s | s | | s m e]; try discriminate Hpos.
  - destruct s; discriminate.
  - unfold SF64div, SFdiv. rewrite SFdiv_core_self.
    rewrite xorb_nilpotent. vm_compute. reflexivity.
Qed.

Lemma three_nodes_positive_entries :
  positive_entries (three_nodes (F := float))
  = [(0, 1, 100%float); (1, 2, 50%float)].
Proof. vm_compute. reflexivity. Qed.

(** ** Shared lemmas *)

Lemma bind_ext {F A B} (m : M F A) (k k' : A -> M F B) :
  (forall a, k a = k' a) -> bind m k = bind m k'.
Proof.
  intros Hk. destruct m as [log [a | p]]; simpl; [| reflexivity].
  now rewrite Hk.
Qed.

Lemma Plot_node_log_prefix {F} {num : Float64 F} {trig : Trig F}
    (c : ChordDiagram F) (canvas : Canvas F) i st :
  exists rest,
    log_of (Plot_node c (plot_origin canvas) (plot_radius canvas)
              (List.length (Flow c)) (angleStep (List.length (Flow c))) i st)
    = map Draw (arc_ops canvas (List.length (Flow c)) i) ++ rest.
Proof.
  unfold Plot_node. destruct st as [b o].
  rewrite !log_of_bind_emit. eexists. reflexivity.
Qed.

Lemma Plot_no_node {F} {num : Float64 F} {trig : Trig F}
    (c : ChordDiagram F) (canvas : Canvas F) :
  List.length (Flow c) = 0 -> Plot c canvas = ([], Done tt).
Proof.
  intros Hn. apply length_zero_iff_nil in Hn.
  unfold Plot, Plot_maxFlow, Plot_chords. rewrite Hn. reflexivity.
Qed.

Lemma Plot_first_arc {F} {num : Float64 F} {trig : Trig F}
    (c : ChordDiagram F) (canvas : Canvas F) :
  List.length (Flow c) <> 0 ->
  exists rest,
    draw_ops (log_of (Plot c canvas))
    = arc_ops canvas (List.length (Flow c)) 0 ++ rest.
Proof.
  intros Hn. unfold Plot. rewrite log_of_bind.
  destruct (Plot_node_log_prefix c canvas 0 (initial_style, initial_style))
    as [rest Hrest].
  fold (angleStep (List.length (Flow c))). unfold upto.
  destruct (List.length (Flow c)) as [| k]; [congruence |].
  cbn [seq for_each]. rewrite log_of_bind, Hrest.
  rewrite <- !app_assoc, draw_ops_app, draw_ops_map_Draw.
  eexists. reflexivity.
Qed.

(** The calls for node [i] stand together in the calls of a run that does
    not panic. *)
Lemma node_ops_in_run {F} {num : Float64 F} {trig : Trig F}
    (c : ChordDiagram F) (canvas : Canvas F) i :
  Labels c = None \/ (rows_cover c /\ labels_cover c) ->
  i < List.length (Flow c) ->
  exists pre post,
    draw_ops (log_of (Plot c canvas)) = pre ++ node_ops c canvas i ++ post.
Proof.
  intros Hwf Hi. rewrite (Plot_run canvas Hwf). simpl log_of.
  rewrite draw_ops_Plot_log.
  assert (Hin : In i (upto (List.length (Flow c)))) by (apply in_seq; lia).
  apply in_split in Hin. destruct Hin as (l1 & l2 & Hsplit).
  rewrite Hsplit, flat_map_app. cbn [flat_map].
  exists (flat_map (node_ops c canvas) l1).
  exists (flat_map (node_ops c canvas) l2
          ++ flat_map (fun e => chord_ops c canvas (fst (fst e)) (snd (fst e)) (snd e))
               (positive_entries c)).
  now rewrite <- !app_assoc.
Qed.

(** The three canvas calls of the chord of a positive entry, in a run on a
    square matrix. *)
Lemma chord_ops_in_run {F} {num : Float64 F} {trig : Trig F}
    (c : ChordDiagram F) (canvas : Canvas F) (i j : nat) (x : F) :
  square c -> labels_cover c ->
  entry (Flow c) i j = Some x -> fgtb x (fconst 0) = true ->
  exists pre post,
    draw_ops (log_of (Plot c canvas)) = pre ++ chord_ops c canvas i j x ++ post.
Proof.
  intros Hsq Hlab Hx Hpos. unfold entry in Hx.
  destruct (nth_error (Flow c) i) as [row |] eqn:Hrow; [| discriminate Hx].
  assert (Hin : In (i, j, x) (positive_entries c)).
  { apply In_positive_entries. split; [| exact Hpos]. now exists row. }
  rewrite (Plot_run canvas (or_intror (conj (square_rows_cover Hsq) Hlab))).
  simpl log_of. rewrite draw_ops_Plot_log.
  apply in_split in Hin. destruct Hin as (l1 & l2 & Hsplit).
  rewrite Hsplit, flat_map_app. cbn [flat_map fst snd].
  exists (flat_map (node_ops c canvas) (upto (List.length (Flow c)))
          ++ flat_map (fun e => chord_ops c canvas (fst (fst e)) (snd (fst e)) (snd e))
               l1).
  exists (flat_map (fun e => chord_ops c canvas (fst (fst e)) (snd (fst e)) (snd e))
            l2).
  now rewrite <- !app_assoc.
Qed.

Lemma hundred_nodes_shape :
  rows_cover hundred_nodes /\ labels_cover hundred_nodes
  /\ List.length (Flow hundred_nodes) = 100.
Proof.
  assert (Hlen : List.length (Flow hundred_nodes) = 100) by reflexivity.
  split; [| split; [| exact Hlen]].
  - unfold rows_cover. rewrite Hlen. apply Forall_forall. intros row Hrow.
    apply repeat_spec in Hrow. subst row. now rewrite repeat_length.
  - unfold labels_cover. cbn [Labels hundred_nodes]. rewrite Hlen.
    now rewrite repeat_length.
Qed.

Section Zeros.
Context {F : Type} {num : Float64 F} {trig : Trig F} {laws : Float64Laws F}.

Lemma filter_none {A} (p : A -> bool) (xs : list A) :
  (forall x, In x xs -> p x = false) -> filter p xs = [].
Proof.
  induction xs as [| x xs IH]; intros H; simpl; [reflexivity |].
  rewrite (H x (or_introl eq_refl)). apply IH. intros y Hy. apply H. now right.
Qed.

Lemma all_zero_entry (c : ChordDiagram F) i j x :
  all_zero c -> In (i, j, x) (entries c) -> feqb x (fconst 0) = true.
Proof.
  intros Hz Hin. apply In_entries in Hin. destruct Hin as [row [Hrow Hx]].
  unfold all_zero in Hz. rewrite Forall_forall in Hz.
  specialize (Hz row (nth_error_In _ _ Hrow)). rewrite Forall_forall in Hz.
  exact (Hz x (nth_error_In _ _ Hx)).
Qed.

Lemma all_zero_no_positive (c : ChordDiagram F) :
  all_zero c -> positive_entries c = [].
Proof.
  intros Hz. unfold positive_entries. apply filter_none.
  intros [[i j] x] Hin. simpl. apply zero_not_positive.
  now apply all_zero_entry with (c := c) (i := i) (j := j).
Qed.

Lemma all_zero_maxFlow (c : ChordDiagram F) : all_zero c -> maxFlow c = fconst 0.
Proof.
  unfold all_zero, maxFlow. generalize (Flow c). intros rows Hz.
  induction Hz as [| row rows Hrow _ IH]; simpl; [reflexivity |].
  assert (Hfold : fold_left (fun m x => if fgtb x m then x else m) row (fconst 0)
                  = fconst 0).
  { clear IH. induction Hrow as [| x row Hx _ IH]; simpl; [reflexivity |].
    now rewrite (zero_not_positive _ Hx). }
  now rewrite Hfold.
Qed.

Lemma filter_flat_map_length {A B} (p : B -> bool) (f : A -> list B) k xs :
  (forall x, List.length (filter p (f x)) = k) ->
  List.length (filter p (flat_map f xs)) = k * List.length xs.
Proof.
  intros Hf. induction xs as [| x xs IH]; simpl; [lia |].
  rewrite filter_app, length_app, Hf, IH. lia.
Qed.

Lemma node_ops_arcs (c : ChordDiagram F) canvas i :
  List.length (filter is_arc_stroke (node_ops c canvas i)) = 1.
Proof. unfold node_ops. destruct (Labels c); reflexivity. Qed.

Lemma node_ops_fills (c : ChordDiagram F) canvas i :
  List.length (filter is_label_fill (node_ops c canvas i))
  = match Labels c with None => 0 | Some _ => 4 end.
Proof. unfold node_ops. destruct (Labels c); reflexivity. Qed.

Lemma node_ops_widths (c : ChordDiagram F) canvas i w :
  In (SetLineWidth w) (node_ops c canvas i) -> w = fconst 2.
Proof.
  unfold node_ops. intros H. apply in_app_or in H. destruct H as [H | H].
  - simpl in H. destruct H as [H | [H | [H | []]]]; try discriminate H.
    now inversion H.
  - destruct (Labels c); simpl in H; [| contradiction].
    repeat (destruct H as [H | H]; [discriminate H |]). contradiction.
Qed.

End Zeros.

(** * The specification, property by property *)

(** ** C1: [Plot] does not validate the shape of its input *)

(** C1, as the code has it.  [Plot] checks nothing before it draws.  With no
    node it returns and has drawn nothing.  With at least one node (a single
    node, a matrix that is not square and a label count that does not match
    included) its first canvas calls stroke the arc of node 0, so a run that
    panics has drawn before it fails.  It returns whenever [Labels] is nil, or
    the matrix is square and every node has a label.  The empty diagram
    returns with nothing drawn; one node with an empty, non-nil label slice
    panics after the arc of the node is stroked. *)
Theorem Plot_does_not_validate
    (F : Type) (num : Float64 F) (trig : Trig F)
    (c : ChordDiagram F) (canvas : Canvas F) :
  let n := List.length (Flow c) in
  let ops := draw_ops (log_of (Plot c canvas)) in
  (n = 0 -> Plot c canvas = ([], Done tt))
  /\ (n <> 0 -> exists rest, ops = arc_ops canvas n 0 ++ rest)
  /\ (forall p, outcome_of (Plot c canvas) = Panic p ->
                exists rest, ops = arc_ops canvas n 0 ++ rest)
  /\ (Labels c = None \/ (square c /\ labels_cover c) ->
      outcome_of (Plot c canvas) = Done tt)
  /\ Plot no_node canvas = ([], Done tt)
  /\ Plot short_labels canvas
     = (map Draw (arc_ops canvas 1 0), Panic (IndexOutOfRange 0 0)).
Proof.
  intros n ops.
  assert (H0 : n = 0 -> Plot c canvas = ([], Done tt))
    by apply Plot_no_node.
  assert (H1 : n <> 0 -> exists rest, ops = arc_ops canvas n 0 ++ rest)
    by apply Plot_first_arc.
  split; [exact H0 |]. split; [exact H1 |]. split.
  - intros p Hp. apply H1. intros Hn. rewrite (H0 Hn) in Hp. discriminate.
  - split; [| split; reflexivity].
    intros [Hnil | [Hsq Hlab]].
    + now rewrite (Plot_run canvas (or_introl Hnil)).
    + now rewrite (Plot_run canvas (or_intror (conj (square_rows_cover Hsq) Hlab))).
Qed.

(** A diagram of one node is a shape the specification calls invalid; in
    exact arithmetic [Plot] returns on it, after stroking the arc of the
    node. *)
Lemma single_node_is_drawn :
  invalid_shape (single_node (F := R))
  /\ outcome_of (Plot (single_node (F := R)) (square_canvas 100)) = Done tt
  /\ (exists rest,
        draw_ops (log_of (Plot (single_node (F := R)) (square_canvas 100)))
        = arc_ops (square_canvas 100) 1 0 ++ rest)
  /\ ~ rejects_before_drawing (Plot (single_node (F := R)) (square_canvas 100)).
Proof.
  assert (Hrun := @Plot_run R _ _ single_node (square_canvas 100)
                    (or_introl eq_refl)).
  split; [right; right; right; reflexivity |].
  split; [now rewrite Hrun |]. split.
  - apply (Plot_first_arc (single_node (F := R)) (square_canvas 100)).
    discriminate.
  - intros [[p Hp] _]. rewrite Hrun in Hp. discriminate.
Qed.

(** ** C2: a matrix of zeros *)

(** C2.  On a square matrix whose entries all equal 0, with [Labels] nil or
    covering every node, the run returns; [maxFlow] is 0; the canvas calls are
    exactly the arc and (with labels) the four text fills of every node; no
    chord is stroked; the quotient [Flow[i][j] / maxFlow] is never evaluated;
    and every line width set is the 2 of the arcs. *)
Theorem all_zero_run
    (F : Type) (num : Float64 F) (trig : Trig F) (laws : Float64Laws F)
    (c : ChordDiagram F) (canvas : Canvas F) :
  all_zero c -> square c -> labels_cover c ->
  let n := List.length (Flow c) in
  let ops := draw_ops (log_of (Plot c canvas)) in
  outcome_of (Plot c canvas) = Done tt
  /\ maxFlow c = fconst 0
  /\ ops = flat_map (node_ops c canvas) (upto n)
  /\ weight_divs (log_of (Plot c canvas)) = []
  /\ Forall (fun op => is_chord_stroke op = false) ops
  /\ List.length (filter is_arc_stroke ops) = n
  /\ List.length (filter is_label_fill ops)
     = match Labels c with None => 0 | Some _ => 4 * n end
  /\ (forall w, In (SetLineWidth w) ops -> w = fconst 2).
Proof.
  intros Hz Hsq Hlab n ops.
  assert (Hrun := Plot_run canvas (or_intror (conj (square_rows_cover Hsq) Hlab))).
  assert (Hops : ops = flat_map (node_ops c canvas) (upto n)).
  { subst ops. rewrite Hrun. simpl log_of.
    rewrite draw_ops_Plot_log, (all_zero_no_positive Hz). apply app_nil_r. }
  split; [now rewrite Hrun |]. split; [now apply all_zero_maxFlow |].
  split; [exact Hops |]. split.
  { rewrite Hrun. simpl log_of.
    now rewrite weight_divs_Plot_log, (all_zero_no_positive Hz). }
  rewrite Hops. split; [| split; [| split]].
  - apply Forall_flat_map. intros i. unfold node_ops.
    destruct (Labels c); repeat constructor.
  - rewrite (filter_flat_map_length _ _ (k := 1)); [| intros; apply node_ops_arcs].
    unfold upto. rewrite length_seq. lia.
  - rewrite (filter_flat_map_length _ _
               (k := match Labels c with None => 0 | Some _ => 4 end));
      [| intros; apply node_ops_fills].
    unfold upto. rewrite length_seq. destruct (Labels c); lia.
  - intros w Hw. apply in_flat_map in Hw. destruct Hw as [i [_ Hw]].
    now apply node_ops_widths in Hw.
Qed.

(** Two nodes without flow, in exact arithmetic: the run returns with 2 arc
    strokes, the 2 labels of each node each filled twice, no chord and no
    quotient. *)
Lemma all_zero_run_witness :
  all_zero (two_idle_nodes (F := R))
  /\ square (two_idle_nodes (F := R))
  /\ labels_cover (two_idle_nodes (F := R))
  /\ outcome_of (Plot (two_idle_nodes (F := R)) (square_canvas 100)) = Done tt
  /\ List.length
       (filter is_arc_stroke
          (draw_ops (log_of (Plot (two_idle_nodes (F := R)) (square_canvas 100)))))
     = 2
  /\ List.length
       (filter is_label_fill
          (draw_ops (log_of (Plot (two_idle_nodes (F := R)) (square_canvas 100)))))
     = 8
  /\ weight_divs (log_of (Plot (two_idle_nodes (F := R)) (square_canvas 100))) = [].
Proof.
  assert (Hz : all_zero (two_idle_nodes (F := R))).
  { unfold all_zero, two_idle_nodes, matrix_of_ints. simpl.
    repeat constructor; apply Reqb_zero. }
  assert (Hsq : square (two_idle_nodes (F := R))).
  { unfold square. simpl. repeat constructor. }
  assert (Hlab : labels_cover (two_idle_nodes (F := R))).
  { unfold labels_cover. simpl. apply Nat.le_refl. }
  destruct (@all_zero_run R _ _ _ two_idle_nodes (square_canvas 100) Hz Hsq Hlab)
    as (Hdone & _ & _ & Hdivs & _ & Harcs & Hfills & _).
  repeat split; assumption.
Defined.

(** ** C3: chords and their widths *)

(** C3, as the code has it.  On a square matrix the run strokes one chord for
    every ordered pair with [Flow[i][j] > 0], in row-major order, after the
    arcs and labels, and no other; the stroke width of the chord is
    [(Flow[i][j] / maxFlow) * 3], evaluated in [float64].  In exact
    arithmetic, with a positive entry, [maxFlow] is the largest entry and the
    width is positive, strictly increasing in the flow and equal to 3 exactly
    at [maxFlow].  In binary64 the width of an entry equal to a finite
    [maxFlow] is exactly 3, and for the flows [[0,100,0],[0,0,50],[0,0,0]] the
    chords are 0->1 of width 3 and 1->2 of width 1.5 and no other. *)
Theorem chord_widths (F : Type) (num : Float64 F) (trig : Trig F) :
  (forall (c : ChordDiagram F) (canvas : Canvas F),
      square c -> labels_cover c ->
      let n := List.length (Flow c) in
      outcome_of (Plot c canvas) = Done tt
      /\ draw_ops (log_of (Plot c canvas))
         = flat_map (node_ops c canvas) (upto n)
           ++ flat_map
                (fun e =>
                   let '(i, j, x) := e in
                   [SetLineWidth (fmul (fdiv x (maxFlow c)) (fconst 3));
                    SetColor (chord_color (Color c (Z.of_nat i) (Z.of_nat j)));
                    Stroke (chord_path canvas n i j)])
                (positive_entries c)
      /\ Forall (fun op => is_chord_stroke op = false)
           (flat_map (node_ops c canvas) (upto n)))
  /\ (forall (c : ChordDiagram F) i j x,
        In (i, j, x) (positive_entries c) <->
        (exists row, nth_error (Flow c) i = Some row /\ nth_error row j = Some x)
        /\ fgtb x (fconst 0) = true)
  /\ (forall c : ChordDiagram F,
        maxFlow c = fconst 0 \/ exists i j, In (i, j, maxFlow c) (entries c))
  /\ (forall c : ChordDiagram R,
        positive_entries c <> [] ->
        (0 < maxFlow c)%R
        /\ (forall i j x, In (i, j, x) (entries c) -> (x <= maxFlow c)%R)
        /\ (exists i j, In (i, j, maxFlow c) (positive_entries c))
        /\ (forall i j x,
              In (i, j, x) (positive_entries c) ->
              (0 < chord_width (fdiv x (maxFlow c)) <= 3)%R
              /\ (chord_width (fdiv x (maxFlow c)) = 3%R <-> x = maxFlow c))
        /\ width_strictly_increasing c)
  /\ (forall (c : ChordDiagram float) i j x,
        In (i, j, x) (positive_entries c) ->
        x = maxFlow c -> fltb x infinity = true ->
        chord_width (fdiv x (maxFlow c)) = 3%float)
  /\ (forall (t : Trig float) (canvas : Canvas float),
        maxFlow (three_nodes (F := float)) = 100%float
        /\ draw_ops (log_of (Plot three_nodes canvas))
           = flat_map (node_ops three_nodes canvas) (upto 3)
             ++ [SetLineWidth 3%float;
                 SetColor (color_RGBA 0 30 255 255);
                 Stroke (chord_path canvas 3 0 1);
                 SetLineWidth 1.5%float;
                 SetColor (color_RGBA 30 60 255 255);
                 Stroke (chord_path canvas 3 1 2)]).
Proof.
  split; [| split; [| split; [| split; [| split]]]].
  - intros c canvas Hsq Hlab n.
    assert (Hrun := Plot_run canvas
                      (or_intror (conj (square_rows_cover Hsq) Hlab))).
    split; [now rewrite Hrun |]. split.
    + rewrite Hrun. simpl log_of. rewrite draw_ops_Plot_log. f_equal.
      apply flat_map_ext. intros [[i j] x]. reflexivity.
    + apply Forall_flat_map. intros i. unfold node_ops.
      destruct (Labels c); repeat constructor.
  - intros c i j x. apply In_positive_entries.
  - intros c. apply maxFlow_is_entry.
  - intros c. apply exact_widths.
  - intros c i j x Hin Hmax Hfin. rewrite <- Hmax.
    apply In_positive_entries in Hin. destruct Hin as [_ Hpos].
    change (fgtb x (fconst 0)) with (PrimFloat.ltb 0 x) in Hpos.
    change (fdiv x x) with (PrimFloat.div x x).
    rewrite (b64_div_self Hpos Hfin). vm_compute. reflexivity.
  - intros t canvas. split; [vm_compute; reflexivity |].
    assert (Hwf : Labels (three_nodes (F := float)) = None
                  \/ (rows_cover (three_nodes (F := float))
                      /\ labels_cover (three_nodes (F := float)))).
    { right. split.
      - unfold rows_cover. simpl. repeat constructor.
      - unfold labels_cover. simpl. apply Nat.le_refl. }
    rewrite (Plot_run canvas Hwf). simpl log_of. rewrite draw_ops_Plot_log.
    rewrite three_nodes_positive_entries. reflexivity.
Qed.

(** Two flows that differ, on a square matrix with a label for every node,
    drawn in binary64 with the same width 0: the quotients by a [maxFlow] of
    about 1e308 underflow. *)
Lemma tiny_flows_same_width :
  square tiny_flows /\ labels_cover tiny_flows
  /\ In (0, 0, 0x1p-1074%float) (positive_entries tiny_flows)
  /\ In (0, 1, 0x1p-1073%float) (positive_entries tiny_flows)
  /\ fltb 0x1p-1074%float 0x1p-1073%float = true
  /\ chord_width (fdiv 0x1p-1074%float (maxFlow tiny_flows)) = 0%float
  /\ chord_width (fdiv 0x1p-1073%float (maxFlow tiny_flows)) = 0%float
  /\ ~ width_strictly_increasing tiny_flows.
Proof.
  assert (H1 : In (0, 0, 0x1p-1074%float) (positive_entries tiny_flows))
    by (vm_compute; tauto).
  assert (H2 : In (0, 1, 0x1p-1073%float) (positive_entries tiny_flows))
    by (vm_compute; tauto).
  split; [unfold square; simpl; repeat constructor |].
  split; [unfold labels_cover; simpl; apply Nat.le_refl |].
  split; [exact H1 |]. split; [exact H2 |].
  split; [vm_compute; reflexivity |].
  split; [vm_compute; reflexivity |].
  split; [vm_compute; reflexivity |].
  intros Hinc. specialize (Hinc _ _ _ _ _ _ H1 H2 eq_refl).
  vm_compute in Hinc. discriminate Hinc.
Qed.

(** ** C4: the layout of the nodes *)

(** X15.  The layout of the nodes, as the code has it.  For a node [i] of a
    square matrix the run strokes, with width 2 and in grey, the arc that
    starts at the point of angle [i * step - step / 3] on the circle of radius
    [0.35 * min(width, height)] around the point [(width / 2, height / 2)] and
    sweeps up to [i * step + step / 3], where [step = 2 pi / N] and [width]
    and [height] are the size of the canvas.  That point is the centre of the
    canvas when the canvas starts at (0, 0).  In exact arithmetic, for
    [N > 1]: the points lie on that circle, the centre angles increase
    strictly with [i], every arc ends before the next one starts, and the last
    arc ends before the first one starts again a full turn later.  In
    binary64 the strict order of consecutive angles and arcs is checked for
    every [N] from 2 to 256. *)
Theorem node_layout (F : Type) (num : Float64 F) (trig : Trig F) :
  (forall (c : ChordDiagram F) (canvas : Canvas F) (i : nat),
      square c -> labels_cover c -> i < List.length (Flow c) ->
      let n := List.length (Flow c) in
      let width := X (Size canvas) in
      let height := Y (Size canvas) in
      let origin := {| X := fdiv width (fconst 2); Y := fdiv height (fconst 2) |} in
      let radius := fmul (fmin width height) (fconst 0.35) in
      let step := fdiv two_pi (of_int (Z.of_nat n)) in
      let angle := fmul (of_int (Z.of_nat i)) step in
      let start := fsub angle (fdiv step (fconst 3)) in
      let stop := fadd angle (fdiv step (fconst 3)) in
      angle = centerAngle n i /\ start = arcStart n i /\ stop = arcEnd n i
      /\ exists pre post,
          draw_ops (log_of (Plot c canvas))
          = pre ++ [SetLineWidth (fconst 2);
                    SetColor (color_RGBA 100 100 100 255);
                    Stroke [MoveComp (pointOnCircle origin radius start);
                            ArcComp origin radius start (fsub stop start)]]
                ++ post)
  /\ (forall canvas : Canvas R,
        X (Min canvas) = 0%R -> Y (Min canvas) = 0%R ->
        plot_origin canvas = Center canvas)
  /\ (forall (origin : Point R) (radius angle : R),
        let p := pointOnCircle origin radius angle in
        ((X p - X origin) ^ 2 + (Y p - Y origin) ^ 2 = radius ^ 2)%R)
  /\ (forall n i j : nat,
        1 < n -> i < j -> (centerAngle (F := R) n i < centerAngle n j)%R)
  /\ (forall n i : nat,
        1 < n ->
        (arcStart (F := R) n i < arcEnd n i)%R
        /\ (arcEnd (F := R) n i < arcStart n (S i))%R)
  /\ (forall n : nat,
        1 < n -> (arcEnd (F := R) n (n - 1) < arcStart n 0 + 2 * PI)%R)
  /\ (forall n i : nat,
        2 <= n <= 256 -> S i < n ->
        fltb (centerAngle (F := float) n i) (centerAngle n (S i)) = true
        /\ fltb (arcStart (F := float) n i) (arcEnd n i) = true
        /\ fltb (arcEnd (F := float) n i) (arcStart n (S i)) = true).
Proof.
  split; [| split; [| split; [| split; [| split; [| split]]]]].
  - intros c canvas i Hsq Hlab Hi n width height origin radius step angle
      start stop.
    split; [reflexivity |]. split; [reflexivity |]. split; [reflexivity |].
    destruct (node_ops_in_run canvas
                (or_intror (conj (square_rows_cover Hsq) Hlab)) Hi)
      as (pre & post & Hops).
    exists pre. unfold node_ops in Hops. rewrite <- app_assoc in Hops.
    eexists. exact Hops.
  - intros [[x0 y0] [x1 y1]] Hx Hy. cbn [Min Max X Y] in Hx, Hy. subst x0 y0.
    unfold plot_origin, Center, Size. cbn [Min Max X Y].
    change (fadd ?a ?b) with (a + b)%R. change (fsub ?a ?b) with (a - b)%R.
    f_equal; lra.
  - intros origin radius angle p. subst p. unfold pointOnCircle.
    cbn [X Y]. change (fadd ?a ?b) with (a + b)%R.
    change (fmul ?a ?b) with (a * b)%R.
    change (fcos angle) with (cos angle). change (fsin angle) with (sin angle).
    assert (H1 := sin2_cos2 angle). unfold Rsqr in H1. nra.
  - intros n i j Hn Hij. rewrite !exact_centerAngle.
    assert (Hs := @exact_angleStep_pos n ltac:(lia)).
    apply Rmult_lt_compat_r; [exact Hs | now apply lt_INR].
  - intros n i Hn. rewrite !exact_arcStart, !exact_arcEnd, S_INR.
    assert (Hs := @exact_angleStep_pos n ltac:(lia)).
    split; nra.
  - intros n Hn. rewrite exact_arcStart, exact_arcEnd.
    assert (Hs := @exact_angleStep_pos n ltac:(lia)).
    assert (Hstep : (INR n * angleStep (F := R) n = 2 * PI)%R).
    { unfold angleStep.
      change (fdiv two_pi (of_int (Z.of_nat n))) with (2 * PI / IZR (Z.of_nat n))%R.
      rewrite <- INR_IZR_INZ. field. apply not_0_INR. lia. }
    rewrite minus_INR by lia. simpl INR. nra.
  - intros n i [Hlo Hhi] Hi.
    assert (Hn : b64_layout_ok n = true).
    { assert (Hall := b64_layout_checked). rewrite forallb_forall in Hall.
      apply Hall. apply in_seq. lia. }
    unfold b64_layout_ok in Hn. rewrite forallb_forall in Hn.
    specialize (Hn i ltac:(apply in_seq; lia)).
    rewrite !andb_true_iff in Hn. exact (conj (proj1 (proj1 Hn))
      (conj (proj2 (proj1 Hn)) (proj2 Hn))).
Qed.

(** C4.  The circle is not centred at the centre of the canvas when the
    canvas does not start at (0, 0): line 51 takes half the size of the
    canvas as origin and never adds [canvas.Min].  On a canvas of side 100
    with its corner at (10, 10), in binary64, the size is (100, 100) and the
    centre is (60, 60), but the origin of [Plot] is (50, 50), and the first
    arc of the three-node diagram is stroked on the circle of radius 35 around
    (50, 50). *)
Theorem moved_canvas_off_centre :
  Size (moved_canvas (F := float)) = {| X := 100%float; Y := 100%float |}
  /\ Center (moved_canvas (F := float)) = {| X := 60%float; Y := 60%float |}
  /\ plot_origin (moved_canvas (F := float)) = {| X := 50%float; Y := 50%float |}
  /\ plot_origin (moved_canvas (F := float)) <> Center moved_canvas
  /\ (forall t : Trig float,
        exists start rest,
          draw_ops (log_of (Plot three_nodes moved_canvas))
          = SetLineWidth 2%float
            :: SetColor (color_RGBA 100 100 100 255)
            :: Stroke [MoveComp (pointOnCircle {| X := 50%float; Y := 50%float |}
                                   35%float start);
                       ArcComp {| X := 50%float; Y := 50%float |} 35%float start
                         (fsub (arcEnd 3 0) start)]
            :: rest).
Proof.
  split; [vm_compute; reflexivity |]. split; [vm_compute; reflexivity |].
  split; [vm_compute; reflexivity |]. split.
  - intros H. apply (f_equal (fun p => PrimFloat.eqb (X p) 50%float)) in H.
    vm_compute in H. discriminate H.
  - intros t.
    destruct (Plot_first_arc (three_nodes (F := float)) moved_canvas)
      as [rest Hrest]; [discriminate |].
    exists (arcStart 3 0), rest. rewrite Hrest. reflexivity.
Qed.

(** ** C5 and C6: the labels of a node *)

(** C5.  For a node [i] of a square matrix with labels, the run fills the
    identity label at radius * 1.07 along the angle of the node, rotated by
    that angle, and the volume label at radius * 1.15, rotated by the angle
    plus [pi/2], where the angle is [float64(i) * (2 pi / float64(N))] as the
    arithmetic computes it and the positions are
    [(width/2 + r cos angle, height/2 + r sin angle)]; both rotations get
    [pi] added once exactly when the computed angle is above the constant
    [pi/2] and below the constant [3 pi/2], and not otherwise; all fills are
    centred horizontally and vertically; each label is filled twice, backplate
    first.  In exact arithmetic the test is membership in the open interval
    (pi/2, 3 pi/2). *)
Theorem label_placement
    (F : Type) (num : Float64 F) (trig : Trig F)
    (c : ChordDiagram F) (canvas : Canvas F) (labels : list string) (i : nat) :
  Labels c = Some labels -> square c -> labels_cover c ->
  i < List.length (Flow c) ->
  let n := List.length (Flow c) in
  let angle := fmul (of_int (Z.of_nat i)) (fdiv two_pi (of_int (Z.of_nat n))) in
  let width := X (Size canvas) in
  let height := Y (Size canvas) in
  let radius := fmul (fmin width height) (fconst 0.35) in
  let on_circle r :=
    {| X := fadd (fdiv width (fconst 2)) (fmul r (fcos angle));
       Y := fadd (fdiv height (fconst 2)) (fmul r (fsin angle)) |} in
  let flip := fgtb angle half_pi && fltb angle three_half_pi in
  let identity_rot := if flip then fadd angle pi else angle in
  let volume_rot :=
    if flip then fadd (fadd angle half_pi) pi else fadd angle half_pi in
  let style clr rot :=
    {| tsColor := clr; tsFontSize := fconst 12; tsRotation := rot;
       tsXAlign := XCenter; tsYAlign := YCenter |} in
  let identity_at := on_circle (fmul radius (fconst 1.07)) in
  let volume_at := on_circle (fmul radius (fconst 1.15)) in
  let label := nth i labels EmptyString in
  let volume := volume_text n (nth i (Flow c) []) in
  (exists pre post,
      draw_ops (log_of (Plot c canvas))
      = pre ++ [FillText (style (color_RGBA 255 255 255 220) identity_rot)
                  identity_at label;
                FillText (style color_Black identity_rot) identity_at label;
                FillText (style (color_RGBA 255 255 255 220) volume_rot)
                  volume_at volume;
                FillText (style color_Black volume_rot) volume_at volume]
            ++ post)
  /\ (forall a : R,
        (fgtb a half_pi && fltb a three_half_pi = true)
        <-> (PI / 2 < a /\ a < 3 * PI / 2)%R).
Proof.
  intros Hlabels Hsq Hlab Hi n angle width height radius on_circle flip
    identity_rot volume_rot style identity_at volume_at label volume.
  split.
  - destruct (node_ops_in_run canvas
                (or_intror (conj (square_rows_cover Hsq) Hlab)) Hi)
      as (pre & post & Hops).
    exists (pre ++ arc_ops canvas n i), post. rewrite Hops. unfold node_ops.
    rewrite Hlabels. now rewrite <- !app_assoc.
  - intros a.
    change (fgtb a half_pi) with (Exact.Rltb (PI / 2) a).
    change (fltb a three_half_pi) with (Exact.Rltb a (3 * PI / 2)).
    rewrite andb_true_iff, !Rltb_iff. reflexivity.
Qed.

(** Node B of the three-node diagram, in exact arithmetic. *)
Lemma label_placement_witness :
  Labels (three_nodes (F := R)) = Some ["A"; "B"; "C"]%string
  /\ square (three_nodes (F := R))
  /\ labels_cover (three_nodes (F := R))
  /\ 1 < List.length (Flow (three_nodes (F := R)))
  /\ (forall a : R,
        (fgtb a half_pi && fltb a three_half_pi = true)
        <-> (PI / 2 < a /\ a < 3 * PI / 2)%R).
Proof.
  assert (Hsq : square (three_nodes (F := R))).
  { unfold square, three_nodes, matrix_of_ints. cbn [Flow map List.length].
    repeat constructor. }
  assert (Hlab : labels_cover (three_nodes (F := R))).
  { unfold labels_cover, three_nodes, matrix_of_ints.
    cbn [Flow Labels map List.length]. apply Nat.le_refl. }
  assert (Hi : 1 < List.length (Flow (three_nodes (F := R)))).
  { unfold three_nodes, matrix_of_ints. cbn [Flow map List.length]. lia. }
  split; [reflexivity |]. split; [exact Hsq |]. split; [exact Hlab |].
  split; [exact Hi |].
  exact (proj2 (@label_placement R _ _ three_nodes (square_canvas 100)
                  ["A"; "B"; "C"]%string 1 eq_refl Hsq Hlab Hi)).
Defined.

(** Node 25 of 100 nodes, in binary64.  Its angle is a quarter turn, [pi/2]
    exactly, which is not inside the open interval (pi/2, 3 pi/2); but the
    product [25 * (2 pi / 100)] rounds to the [float64] just above the
    constant [pi/2], the test of lines 90 and 104 is true, and the run fills
    both labels of the node with [pi] added to the rotation. *)
Lemma quarter_turn_label_is_flipped :
  centerAngle (F := R) 100 25 = (PI / 2)%R
  /\ ~ (PI / 2 < centerAngle (F := R) 100 25 < 3 * PI / 2)%R
  /\ fmul (of_int 25) (fdiv two_pi (of_int 100)) = 0x1.921fb54442d19p+0%float
  /\ half_pi = 0x1.921fb54442d18p+0%float
  /\ (forall t : Trig float,
        let angle : float := fmul (of_int 25) (fdiv two_pi (of_int 100)) in
        let style clr rot :=
          {| tsColor := clr; tsFontSize := fconst 12; tsRotation := rot;
             tsXAlign := XCenter; tsYAlign := YCenter |} in
        exists pre post at1 at2 text,
          draw_ops (log_of (Plot hundred_nodes (square_canvas 100)))
          = pre
            ++ [FillText (style (color_RGBA 255 255 255 220) (fadd angle pi))
                  at1 "node";
                FillText (style color_Black (fadd angle pi)) at1 "node";
                FillText (style (color_RGBA 255 255 255 220)
                            (fadd (fadd angle half_pi) pi))
                  at2 text;
                FillText (style color_Black (fadd (fadd angle half_pi) pi))
                  at2 text]
            ++ post).
Proof.
  assert (Hangle : centerAngle (F := R) 100 25 = (PI / 2)%R).
  { rewrite exact_centerAngle. unfold angleStep.
    change (fdiv two_pi (of_int (Z.of_nat 100))) with (2 * PI / IZR 100)%R.
    rewrite INR_IZR_INZ. change (Z.of_nat 25) with 25%Z. lra. }
  split; [exact Hangle |]. split; [rewrite Hangle; lra |].
  split; [vm_compute; reflexivity |]. split; [reflexivity |].
  intros t angle style. destruct hundred_nodes_shape as (Hrows & Hlab & Hlen).
  destruct (@node_ops_in_run float _ t hundred_nodes (square_canvas 100) 25
              (or_intror (conj Hrows Hlab)) ltac:(rewrite Hlen; lia))
    as (pre & post & Hops).
  exists (pre ++ arc_ops (square_canvas 100) 100 25), post.
  exists (identity_pos (square_canvas 100) 100 25).
  exists (volume_pos (square_canvas 100) 100 25).
  exists (volume_text 100 (nth 25 (Flow hundred_nodes) [])).
  rewrite Hops. unfold node_ops. rewrite Hlen.
  cbn [Labels hundred_nodes]. unfold label_ops.
  assert (Hflip : in_left_half (centerAngle (F := float) 100 25) = true)
    by (vm_compute; reflexivity).
  unfold identity_rotation, volume_rotation. rewrite Hflip.
  change (nth 25 (repeat "node"%string 100) EmptyString) with "node"%string.
  now rewrite <- !app_assoc.
Qed.



(** ** C7: arcs and labels come before chords *)

(** C7.  In the sequence of canvas calls of any run of [Plot] (one that
    panics included), every arc stroke and every text fill comes before every
    chord stroke: the sequence splits into a part without chord strokes
    followed by a part without arc strokes and text fills.  Arc paths count
    as arc strokes and chord paths as chord strokes. *)
Theorem arcs_and_labels_precede_chords
    (F : Type) (num : Float64 F) (trig : Trig F)
    (c : ChordDiagram F) (canvas : Canvas F) :
  let ops := draw_ops (log_of (Plot c canvas)) in
  (exists pre post,
      ops = pre ++ post /\
      Forall (fun op => is_chord_stroke op = false) pre /\
      Forall (fun op => is_arc_stroke op = false /\ is_label_fill op = false) post)
  /\ (forall i j a b,
        nth_error ops i = Some a -> nth_error ops j = Some b ->
        is_arc_stroke a = true \/ is_label_fill a = true ->
        is_chord_stroke b = true ->
        i < j)
  /\ (forall n i, is_arc_stroke (Stroke (arc_path canvas n i)) = true)
  /\ (forall n i j, is_chord_stroke (Stroke (chord_path canvas n i j)) = true).
Proof.
  intros ops.
  assert (Hsplit : exists pre post,
      ops = pre ++ post /\
      Forall (fun op => is_chord_stroke op = false) pre /\
      Forall (fun op => is_arc_stroke op = false /\ is_label_fill op = false) post).
  { destruct (Plot_log_split c canvas) as (l1 & l2 & Hlog & H1 & H2).
    exists (draw_ops l1), (draw_ops l2). subst ops.
    rewrite Hlog, draw_ops_app. split; [reflexivity |]. split.
    - apply draw_ops_Forall with (P := node_event); [| assumption].
      intros op Hop. exact Hop.
    - apply draw_ops_Forall with (P := chord_event); [| assumption].
      intros op Hop. exact Hop. }
  split; [exact Hsplit |]. split; [| split; reflexivity].
  destruct Hsplit as (pre & post & Hops & Hpre & Hpost).
  intros i j a b Hi Hj Ha Hb. rewrite Hops in Hi, Hj.
  apply (@app_order _
           (fun op => is_arc_stroke op = true \/ is_label_fill op = true)
           (fun op => is_chord_stroke op = true) pre post i j a b);
    try assumption.
  - eapply Forall_impl; [| exact Hpre]. intros op H. simpl in H. congruence.
  - eapply Forall_impl; [| exact Hpost]. intros op [H1 H2] [H | H]; congruence.
Qed.

(** ** C8: determinism *)

(** C8.  Two runs on diagrams with the same matrix, the same labels and
    colour functions that agree everywhere, on canvases of equal size, end the
    same way with the same log, hence with the same sequence of canvas
    calls. *)
Theorem Plot_deterministic
    (F : Type) (num : Float64 F) (trig : Trig F)
    (c1 c2 : ChordDiagram F) (canvas1 canvas2 : Canvas F) :
  Flow c1 = Flow c2 ->
  Labels c1 = Labels c2 ->
  (forall i j, Color c1 i j = Color c2 i j) ->
  Size canvas1 = Size canvas2 ->
  Plot c1 canvas1 = Plot c2 canvas2
  /\ draw_ops (log_of (Plot c1 canvas1)) = draw_ops (log_of (Plot c2 canvas2)).
Proof.
  intros Hflow Hlabels Hcolor Hsize.
  assert (Heq : Plot c1 canvas1 = Plot c2 canvas2); [| now rewrite Heq].
  destruct c1 as [flow1 labels1 color1], c2 as [flow2 labels2 color2].
  simpl in Hflow, Hlabels, Hcolor. subst flow2 labels2.
  unfold Plot, plot_origin, plot_radius. rewrite Hsize.
  unfold Plot_node, Plot_maxFlow, Plot_chords, Flow_at.
  cbn [Flow Labels Color].
  apply bind_ext. intros _. apply bind_ext. intros m.
  apply for_each_ext. intros i [] _.
  apply bind_ext. intros row.
  apply for_each_ext. intros j [] _.
  apply bind_ext. intros x.
  now rewrite Hcolor.
Qed.

(** The three-node diagram on two canvases of side 100, in exact
    arithmetic. *)
Lemma Plot_deterministic_witness :
  Size (moved_canvas (F := R)) = Size (square_canvas 100) /\
  Plot (three_nodes' (F := R)) moved_canvas = Plot three_nodes (square_canvas 100).
Proof.
  assert (Hsize : Size (moved_canvas (F := R)) = Size (square_canvas 100)).
  { unfold Size, moved_canvas, square_canvas. simpl. f_equal; lra. }
  split; [exact Hsize |].
  refine (proj1 (@Plot_deterministic R _ _ three_nodes' three_nodes
                   moved_canvas (square_canvas 100) eq_refl eq_refl _ Hsize)).
  intros i j. simpl. now rewrite !Z.add_0_r.
Defined.

(** ** C9: a nil [Labels] *)

(** C9.  With [Labels] nil the run returns whatever the shape of the matrix,
    its canvas calls are the arc of every node followed by one chord for every
    entry with [Flow[i][j] > 0], and no call is a text fill. *)
Theorem nil_labels_run
    (F : Type) (num : Float64 F) (trig : Trig F)
    (c : ChordDiagram F) (canvas : Canvas F) :
  Labels c = None ->
  let n := List.length (Flow c) in
  let ops := draw_ops (log_of (Plot c canvas)) in
  outcome_of (Plot c canvas) = Done tt
  /\ ops = flat_map (arc_ops canvas n) (upto n)
           ++ flat_map (fun e => chord_ops c canvas (fst (fst e)) (snd (fst e)) (snd e))
                (positive_entries c)
  /\ (forall i j x,
        In (i, j, x) (positive_entries c) <->
        (exists row, nth_error (Flow c) i = Some row /\ nth_error row j = Some x)
        /\ fgtb x (fconst 0) = true)
  /\ Forall (fun op => is_label_fill op = false) ops.
Proof.
  intros Hnil n ops.
  assert (Hops : ops = flat_map (arc_ops canvas n) (upto n)
           ++ flat_map (fun e => chord_ops c canvas (fst (fst e)) (snd (fst e)) (snd e))
                (positive_entries c)).
  { subst ops. rewrite (Plot_run canvas (or_introl Hnil)). simpl log_of.
    rewrite draw_ops_Plot_log. f_equal.
    apply flat_map_ext. intros i. unfold node_ops. rewrite Hnil.
    apply app_nil_r. }
  split; [now rewrite (Plot_run canvas (or_introl Hnil)) |].
  split; [exact Hops |]. split; [intros; apply In_positive_entries |].
  rewrite Hops. apply Forall_app. split; apply Forall_flat_map; intros x;
    repeat constructor.
Qed.

(** The one-node diagram without labels, drawn in exact arithmetic. *)
Lemma nil_labels_run_witness :
  Labels (single_node (F := R)) = None /\
  outcome_of (Plot (single_node (F := R)) (square_canvas 100)) = Done tt.
Proof.
  split; [reflexivity |].
  exact (proj1 (@nil_labels_run R _ _ single_node (square_canvas 100) eq_refl)).
Defined.

(** ** C10: index accesses *)

(** C10.  When the matrix is square and [Labels] is nil or has at least one
    label per node, no access of the run is out of range: the run returns.
    Without the precondition an access can be out of range: a label slice that
    is too short and a row that is too short both end the run in a panic. *)
Theorem index_accesses_in_range
    (F : Type) (num : Float64 F) (trig : Trig F) :
  (forall (c : ChordDiagram F) (canvas : Canvas F),
      square c -> labels_cover c ->
      outcome_of (Plot c canvas) = Done tt)
  /\ (forall canvas : Canvas F,
        ~ labels_cover (short_labels (F := F)) /\
        outcome_of (Plot short_labels canvas) = Panic (IndexOutOfRange 0 0))
  /\ (forall canvas : Canvas F,
        ~ square (short_row (F := F)) /\
        outcome_of (Plot short_row canvas) = Panic (IndexOutOfRange 0 0)).
Proof.
  split; [| split].
  - intros c canvas Hsq Hlab.
    now rewrite (Plot_run canvas (or_intror (conj (square_rows_cover Hsq) Hlab))).
  - intros canvas. split; [| reflexivity].
    unfold labels_cover. simpl. lia.
  - intros canvas. split; [| reflexivity].
    unfold square. simpl. intros H. inversion H as [| ? ? Hlen _]. discriminate.
Qed.

(** * Further properties of the renderer *)

(** X1.  A node on the boundary of the flip test.  With 100 nodes the angle
    of node 25 is a quarter turn: exactly [pi/2] in exact arithmetic, where
    the label is not flipped.  In binary64 the product [25 * (2 pi / 100)] is
    one unit in the last place above the constant [math.Pi/2], and the label
    is flipped. *)
Theorem quarter_turn_flips_in_binary64 :
  centerAngle (F := R) 100 25 = (PI / 2)%R
  /\ in_left_half (centerAngle (F := R) 100 25) = false
  /\ centerAngle (F := float) 100 25 = 0x1.921fb54442d19p+0%float
  /\ half_pi (F := float) = 0x1.921fb54442d18p+0%float
  /\ in_left_half (centerAngle (F := float) 100 25) = true.
Proof.
  assert (Hangle : centerAngle (F := R) 100 25 = (PI / 2)%R).
  { rewrite exact_centerAngle. unfold angleStep.
    change (fdiv two_pi (of_int (Z.of_nat 100))) with (2 * PI / IZR 100)%R.
    change (INR 25) with (IZR (Z.of_nat 25)) || rewrite INR_IZR_INZ.
    change (Z.of_nat 25) with 25%Z. lra. }
  split; [exact Hangle |]. split.
  - rewrite Hangle. unfold in_left_half.
    change (fgtb (PI / 2)%R half_pi) with (Exact.Rltb (PI / 2) (PI / 2)).
    rewrite (@Rltb_false (PI / 2) (PI / 2)) by apply Rlt_irrefl. reflexivity.
  - repeat split; vm_compute; reflexivity.
Qed.

(** X2.  A positive entry on the diagonal draws a chord from the point of
    node [i] back to itself: the path moves to that point and adds a curve
    that ends there, with both control points equal. *)
Theorem self_flow_chord
    (F : Type) (num : Float64 F) (trig : Trig F)
    (c : ChordDiagram F) (canvas : Canvas F) (i : nat) (x : F) :
  square c -> labels_cover c ->
  nth_error (Flow c) i = Some (nth i (Flow c) []) ->
  nth_error (nth i (Flow c) []) i = Some x ->
  fgtb x (fconst 0) = true ->
  exists p q,
    In (Stroke [MoveComp p; CurveComp q q p])
       (draw_ops (log_of (Plot c canvas))).
Proof.
  intros Hsq Hlab Hrow Hx Hpos.
  assert (Hin : In (i, i, x) (positive_entries c)).
  { apply In_positive_entries. split; [| exact Hpos].
    exists (nth i (Flow c) []). now split. }
  rewrite (Plot_run canvas (or_intror (conj (square_rows_cover Hsq) Hlab))).
  simpl log_of. rewrite draw_ops_Plot_log.
  eexists. eexists. apply in_or_app. right.
  apply in_flat_map. exists (i, i, x). split; [exact Hin |].
  unfold chord_ops, chord_path. cbn [fst snd]. right. right. left. reflexivity.
Qed.

(** One node that sends 5 to itself, in exact arithmetic. *)
Lemma self_flow_chord_witness :
  square self_flow_node /\ labels_cover self_flow_node
  /\ fgtb 5%R (fconst 0) = true
  /\ exists p q,
      In (Stroke [MoveComp p; CurveComp q q p])
         (draw_ops (log_of (Plot self_flow_node (square_canvas 100)))).
Proof.
  assert (Hsq : square self_flow_node) by (repeat constructor).
  assert (Hlab : labels_cover self_flow_node) by exact I.
  assert (Hpos : fgtb 5%R (fconst 0) = true).
  { change (fgtb 5%R (fconst 0)) with (Exact.Rltb (Q2R 0) 5).
    apply Rltb_true. rewrite Q2R_zero. lra. }
  split; [exact Hsq |]. split; [exact Hlab |]. split; [exact Hpos |].
  exact (@self_flow_chord R _ _ self_flow_node (square_canvas 100) 0 5%R
           Hsq Hlab eq_refl eq_refl Hpos).
Defined.

(** X3.  The colour a chord is stroked with.  For a positive entry
    [Flow[i][j]] of a square matrix the run sets the line width, then sets the
    colour, then strokes the path of the chord; the colour set has the red,
    green and blue channels of [Color(i, j)] converted to [color.RGBA] and
    its alpha plus 100, capped at 255.  For the colours [main] passes, of
    alpha 200, the chord is stroked with alpha 255. *)
Theorem chord_alpha_boost
    (F : Type) (num : Float64 F) (trig : Trig F)
    (c : ChordDiagram F) (canvas : Canvas F) (i j : nat) (x : F) :
  square c -> labels_cover c ->
  entry (Flow c) i j = Some x -> fgtb x (fconst 0) = true ->
  let n := List.length (Flow c) in
  let width := fmul (fdiv x (maxFlow c)) (fconst 3) in
  (forall r g b a,
      RGBAModel_Convert (Color c (Z.of_nat i) (Z.of_nat j)) = (r, g, b, a) ->
      exists pre post,
        draw_ops (log_of (Plot c canvas))
        = pre ++ [SetLineWidth width;
                  SetColor (color_RGBA r g b (Z.min 255 (a + 100)));
                  Stroke (chord_path canvas n i j)]
              ++ post)
  /\ (Color c (Z.of_nat i) (Z.of_nat j)
      = color_RGBA ((30 * Z.of_nat i) mod 256) ((30 * Z.of_nat j) mod 256) 255 200 ->
      exists pre post,
        draw_ops (log_of (Plot c canvas))
        = pre ++ [SetLineWidth width;
                  SetColor (color_RGBA ((30 * Z.of_nat i) mod 256)
                              ((30 * Z.of_nat j) mod 256) 255 255);
                  Stroke (chord_path canvas n i j)]
              ++ post).
Proof.
  intros Hsq Hlab Hx Hpos n width.
  destruct (@chord_ops_in_run F num trig c canvas i j x Hsq Hlab Hx Hpos)
    as (pre & post & Hops).
  assert (Hgen : forall r g b a,
             RGBAModel_Convert (Color c (Z.of_nat i) (Z.of_nat j)) = (r, g, b, a) ->
             exists pre post,
               draw_ops (log_of (Plot c canvas))
               = pre ++ [SetLineWidth width;
                         SetColor (color_RGBA r g b (Z.min 255 (a + 100)));
                         Stroke (chord_path canvas n i j)]
                     ++ post).
  { intros r g b a Hclr. exists pre, post. rewrite Hops.
    unfold chord_ops, chord_color, chord_width. now rewrite Hclr. }
  split; [exact Hgen |].
  intros Hmain. apply (Hgen _ _ _ 200%Z). now rewrite Hmain.
Qed.

(** The chord from node 0 to node 1 of the two-way diagram, with the colours
    of [main]. *)
Lemma chord_alpha_boost_witness :
  exists pre post,
    draw_ops (log_of (Plot two_way (square_canvas 100)))
    = pre ++ [SetLineWidth (fmul (fdiv 100%R (maxFlow two_way)) (fconst 3));
              SetColor (color_RGBA 0 30 255 255);
              Stroke (chord_path (square_canvas 100) 2 0 1)]
          ++ post.
Proof.
  apply (proj2 (@chord_alpha_boost R _ _ two_way (square_canvas 100) 0 1 100%R
           ltac:(repeat constructor) I eq_refl
           ltac:(change (fgtb 100%R (fconst 0)) with (Exact.Rltb (Q2R 0) 100);
                 apply Rltb_true; rewrite Q2R_zero; lra))).
  reflexivity.
Defined.

(** X4.  The colour function of [main] has period 128 in each index, because
    [uint8(30 * i)] wraps: two pairs of indices get the same colour exactly
    when the row indices differ by a multiple of 128 and the column indices
    do.  In particular an index and the next one never get the same
    colour. *)
Theorem main_Color_aliases :
  (forall i j, main_Color (i + 128) j = main_Color i j)
  /\ (forall i j, main_Color i (j + 128) = main_Color i j)
  /\ (forall i j i' j',
        main_Color i j = main_Color i' j'
        <-> ((i - i') mod 128 = 0 /\ (j - j') mod 128 = 0)%Z)
  /\ (forall i j,
        main_Color (i + 1) j <> main_Color i j
        /\ main_Color i (j + 1) <> main_Color i j).
Proof.
  assert (H : forall k, ((30 * (k + 128)) mod 256 = (30 * k) mod 256)%Z).
  { intros k. replace (30 * (k + 128))%Z with (30 * k + 15 * 256)%Z by lia.
    apply Z.mod_add. lia. }
  assert (Hch : forall k k',
             ((30 * k) mod 256 = (30 * k') mod 256 <-> (k - k') mod 128 = 0)%Z).
  { intros k k'.
    pose proof (Z.div_mod (30 * k) 256 ltac:(lia)) as H1.
    pose proof (Z.div_mod (30 * k') 256 ltac:(lia)) as H2.
    pose proof (Z.div_mod (k - k') 128 ltac:(lia)) as H3.
    pose proof (Z.mod_pos_bound (k - k') 128 ltac:(lia)) as H4.
    split.
    - intros Heq. lia.
    - intros Hd. rewrite Hd in H3.
      replace (30 * k)%Z with (30 * k' + (15 * ((k - k') / 128)) * 256)%Z by lia.
      apply Z.mod_add. lia. }
  assert (Hiff : forall i j i' j',
             main_Color i j = main_Color i' j'
             <-> ((i - i') mod 128 = 0 /\ (j - j') mod 128 = 0)%Z).
  { intros i j i' j'. unfold main_Color. rewrite <- !Hch. split.
    - intros Heq. inversion Heq. now split.
    - intros [-> ->]. reflexivity. }
  split; [intros i j; unfold main_Color; now rewrite H |].
  split; [intros i j; unfold main_Color; now rewrite H |].
  split; [exact Hiff |].
  intros i j. split; intros Heq; apply Hiff in Heq; destruct Heq as [Hi Hj].
  - replace (i + 1 - i)%Z with 1%Z in Hi by lia. discriminate Hi.
  - replace (j + 1 - j)%Z with 1%Z in Hj by lia. discriminate Hj.
Qed.

(** X5.  The number of canvas calls of a run on a square matrix of [N] nodes
    with labels: 7 per node and 3 per positive entry, hence at most
    [7 N + 3 N^2]. *)
Theorem draw_call_count
    (F : Type) (num : Float64 F) (trig : Trig F)
    (c : ChordDiagram F) (canvas : Canvas F) (labels : list string) :
  Labels c = Some labels -> square c -> labels_cover c ->
  let n := List.length (Flow c) in
  let ops := draw_ops (log_of (Plot c canvas)) in
  List.length ops = 7 * n + 3 * List.length (positive_entries c)
  /\ List.length (positive_entries c) <= n * n
  /\ List.length ops <= 7 * n + 3 * (n * n).
Proof.
  intros Hlabels Hsq Hlab n ops.
  assert (Hlen : List.length ops = 7 * n + 3 * List.length (positive_entries c)).
  { subst ops.
    rewrite (Plot_run canvas (or_intror (conj (square_rows_cover Hsq) Hlab))).
    simpl log_of. rewrite draw_ops_Plot_log, length_app. f_equal.
    - assert (H : forall l, List.length (flat_map (node_ops c canvas) l)
                            = 7 * List.length l).
      { induction l as [| i l IH]; [reflexivity |].
        cbn [flat_map]. rewrite length_app, IH. unfold node_ops.
        rewrite Hlabels. cbn [List.length app arc_ops label_ops]. lia. }
      rewrite H. unfold upto. now rewrite length_seq.
    - induction (positive_entries c) as [| e l IH]; [reflexivity |].
      cbn [flat_map]. rewrite length_app, IH. cbn [List.length chord_ops]. lia. }
  assert (Hpos : List.length (positive_entries c) <= n * n).
  { unfold positive_entries.
    eapply Nat.le_trans; [apply filter_length_le |].
    unfold entries. subst n. unfold square in Hsq.
    assert (H : forall rows a,
               Forall (fun row => List.length row = List.length (Flow c)) rows ->
               List.length
                 (flat_map (fun ir : nat * list F =>
                              map (fun jx : nat * F => (fst ir, fst jx, snd jx))
                                (enumerate_from 0 (snd ir)))
                    (enumerate_from a rows))
               = List.length rows * List.length (Flow c)).
    { induction rows as [| row rows IH]; intros a Hrows; [reflexivity |].
      inversion Hrows as [| ? ? Hrow Hrest]; subst.
      rewrite enumerate_from_cons. cbn [flat_map fst snd].
      rewrite length_app, length_map, (IH (S a) Hrest).
      unfold enumerate_from at 1. rewrite length_combine, length_seq, Hrow.
      rewrite Nat.min_id. cbn [List.length]. lia. }
    rewrite (H (Flow c) 0 Hsq). apply Nat.le_refl. }
  split; [exact Hlen |]. split; [exact Hpos |]. lia.
Qed.

Lemma draw_call_count_witness :
  Labels (three_nodes (F := R)) = Some ["A"; "B"; "C"]%string
  /\ square (three_nodes (F := R))
  /\ labels_cover (three_nodes (F := R))
  /\ List.length (draw_ops (log_of (Plot (three_nodes (F := R)) (square_canvas 100))))
     <= 48.
Proof.
  assert (Hsq : square (three_nodes (F := R))).
  { unfold square, three_nodes, matrix_of_ints. cbn [Flow map List.length].
    repeat constructor. }
  assert (Hlab : labels_cover (three_nodes (F := R))).
  { unfold labels_cover, three_nodes, matrix_of_ints.
    cbn [Flow Labels map List.length]. apply Nat.le_refl. }
  split; [reflexivity |]. split; [exact Hsq |]. split; [exact Hlab |].
  exact (proj2 (proj2 (@draw_call_count R _ _ three_nodes (square_canvas 100)
                         ["A"; "B"; "C"]%string eq_refl Hsq Hlab))).
Defined.

(** ** The order of binary64 and of the reals *)

(** Case analysis on [SFcompare]: classes and signs first, then the
    comparisons of exponents and mantissas. *)
Ltac sf_cases :=
  unfold SFltb, SFeqb, SFcompare;
  repeat match goal with
         | x : spec_float |- _ => destruct x as [[] | [] | | [] ? ?]
         end;
  intros; try discriminate; try reflexivity;
  repeat match goal with
         | H : context [Pos.compare_cont Eq ?a ?b] |- _ =>
             change (Pos.compare_cont Eq a b) with (Pos.compare a b) in H
         | |- context [Pos.compare_cont Eq ?a ?b] =>
             change (Pos.compare_cont Eq a b) with (Pos.compare a b)
         end;
  repeat match goal with
         | H : context [Z.compare ?a ?b] |- _ => destruct (Z.compare_spec a b)
         | |- context [Z.compare ?a ?b] => destruct (Z.compare_spec a b)
         | H : context [Pos.compare ?a ?b] |- _ => destruct (Pos.compare_spec a b)
         | |- context [Pos.compare ?a ?b] => destruct (Pos.compare_spec a b)
         end;
  simpl in *; subst; try discriminate; try reflexivity; try lia.

Lemma SFltb_irrefl (x : spec_float) : SFltb x x = false.
Proof. sf_cases. Qed.

Lemma SFltb_max_step (m y x : spec_float) :
  SFltb m y = false -> SFltb m x = true -> SFltb x y = false.
Proof. sf_cases. Qed.

Lemma SFltb_trans (x y z : spec_float) :
  SFltb x y = true -> SFltb y z = true -> SFltb x z = true.
Proof. sf_cases. Qed.

Lemma SFltb_is_number (a b : spec_float) : SFltb b a = true -> SFeqb a a = true.
Proof. sf_cases. Qed.

Lemma SFltb_dominated (z x m : spec_float) :
  SFltb z x = true -> SFltb m x = false -> SFeqb m m = true -> SFltb z m = true.
Proof. sf_cases. Qed.

#[global] Instance binary64_order : Float64Order float.
Proof.
  constructor; cbn [fgtb feqb Binary64.binary64]; intros;
    repeat match goal with
           | H : context [PrimFloat.ltb _ _] |- _ => rewrite ltb_spec in H
           | H : context [PrimFloat.eqb _ _] |- _ => rewrite eqb_spec in H
           end;
    rewrite ?ltb_spec, ?eqb_spec.
  - apply SFltb_irrefl.
  - eapply SFltb_max_step; eassumption.
  - eapply SFltb_trans; eassumption.
  - eapply SFltb_is_number; eassumption.
  - vm_compute. reflexivity.
  - eapply SFltb_dominated; eassumption.
Qed.

#[global] Instance exact_order : Float64Order R.
Proof.
  constructor; cbn [fgtb feqb Exact.exact]; intros.
  - apply Rltb_false, Rlt_irrefl.
  - apply Rltb_false. intros Hc.
    match goal with H : Exact.Rltb _ _ = true |- _ => apply Rltb_iff in H end.
    match goal with
    | H : Exact.Rltb ?a ?b = false |- _ =>
        assert (~ (a < b)%R) by (intros Hlt; apply Rltb_iff in Hlt; congruence)
    end.
    lra.
  - repeat match goal with
           | H : Exact.Rltb _ _ = true |- _ => apply Rltb_iff in H
           end.
    apply Rltb_true. lra.
  - now apply Reqb_iff.
  - now apply Reqb_iff.
  - match goal with H : Exact.Rltb _ _ = true |- _ => apply Rltb_iff in H end.
    match goal with
    | H : Exact.Rltb ?a ?b = false |- _ =>
        assert (~ (a < b)%R) by (intros Hlt; apply Rltb_iff in Hlt; congruence)
    end.
    apply Rltb_true. lra.
Qed.

(** ** The quotients [Flow[i][j] / maxFlow] *)

Section WeightQuotients.
Context {F : Type} {num : Float64 F} {trig : Trig F} {order : Float64Order F}.

(** After the maximum loop over [l], started at a number [m]: no element of
    [l] is above the result, nothing that was not above [m] is above it, and
    it is a number. *)
Lemma max_loop_dominates (l : list F) (m : F) :
  feqb m m = true ->
  (forall x, In x l ->
             fgtb x (fold_left (fun m x => if fgtb x m then x else m) l m) = false)
  /\ (forall y, fgtb y m = false ->
                fgtb y (fold_left (fun m x => if fgtb x m then x else m) l m)
                = false)
  /\ feqb (fold_left (fun m x => if fgtb x m then x else m) l m)
          (fold_left (fun m x => if fgtb x m then x else m) l m) = true.
Proof.
  revert m. induction l as [| x l IH]; intros m Hm; cbn [fold_left].
  - split; [intros x [] |]. split; [intros y Hy; exact Hy | exact Hm].
  - destruct (fgtb x m) eqn:Hx.
    + destruct (IH x (gt_is_number _ _ Hx)) as (Hall & Hmono & Hnum).
      split; [| split; [| exact Hnum]].
      * intros z [<- | Hz]; [apply Hmono, gt_irrefl | now apply Hall].
      * intros y Hy. apply Hmono. now apply gt_max_step with (m := m).
    + destruct (IH m Hm) as (Hall & Hmono & Hnum).
      split; [| split; [| exact Hnum]].
      * intros z [<- | Hz]; [now apply Hmono | now apply Hall].
      * intros y Hy. now apply Hmono.
Qed.

(** No entry of the matrix is above [maxFlow], and [maxFlow] is a number. *)
Lemma maxFlow_dominates (c : ChordDiagram F) :
  (forall i j x, In (i, j, x) (entries c) -> fgtb x (maxFlow c) = false)
  /\ feqb (maxFlow c) (maxFlow c) = true.
Proof.
  unfold maxFlow. rewrite fold_rows_concat.
  destruct (max_loop_dominates (List.concat (Flow c)) (fconst 0) zero_is_number)
    as (Hall & _ & Hnum).
  split; [| exact Hnum].
  intros i j x Hin. apply Hall. apply In_concat_entries. now exists i, j.
Qed.

Lemma node_events_no_division (log : list (Event F)) :
  Forall node_event log -> weight_divs log = [].
Proof.
  induction 1 as [| [op | x y] log Hx _ IH]; simpl; [reflexivity | exact IH |].
  destruct Hx.
Qed.

(** The quotients of any run: none when the node loop panics, one per
    positive entry otherwise. *)
Lemma Plot_weight_divs (c : ChordDiagram F) (canvas : Canvas F) :
  weight_divs (log_of (Plot c canvas)) = []
  \/ weight_divs (log_of (Plot c canvas))
     = map (fun e => (snd e, maxFlow c)) (positive_entries c).
Proof.
  unfold Plot. rewrite log_of_bind, weight_divs_app.
  rewrite node_events_no_division
    by (apply for_each_log_Forall; intros; apply Plot_node_events).
  destruct (outcome_of _); [right | now left].
  rewrite Plot_maxFlow_run, bind_ret_l, Plot_chords_run. simpl log_of.
  apply weight_divs_chord_events.
Qed.

End WeightQuotients.

(** X6.  The quotients [Flow[i][j] / maxFlow] of line 138.  Whatever the
    input (any shape, any values, NaN and infinities included), every such
    quotient that a run evaluates has a numerator above 0 and not above the
    denominator, and a denominator, [maxFlow], that is above 0: this division
    is never by zero or by NaN, in binary64 and in exact arithmetic.  The
    other division by a computed value, [2 pi / float64(n)] of line 55, has a
    zero denominator when the matrix is empty; the quotient is then [+Inf] in
    binary64, and the run draws nothing and returns. *)
Theorem weight_quotients_are_safe
    (F : Type) (num : Float64 F) (trig : Trig F) (order : Float64Order F)
    (c : ChordDiagram F) (canvas : Canvas F) :
  Forall (fun xm =>
            fgtb (fst xm) (fconst 0) = true
            /\ snd xm = maxFlow c
            /\ fgtb (fst xm) (snd xm) = false
            /\ fgtb (snd xm) (fconst 0) = true)
    (weight_divs (log_of (Plot c canvas)))
  /\ (Flow c = [] -> Plot c canvas = ([], Done tt))
  /\ fdiv two_pi (of_int (Z.of_nat 0)) = infinity.
Proof.
  split; [| split; [| vm_compute; reflexivity]].
  2: { intros Hnil. apply Plot_no_node. now rewrite Hnil. }
  destruct (Plot_weight_divs c canvas) as [-> | ->]; [constructor |].
  apply Forall_forall. intros xm Hin. apply in_map_iff in Hin.
  destruct Hin as [[[i j] x] [<- Hin]]. cbn [fst snd].
  destruct (maxFlow_dominates c) as [Hall Hnum].
  assert (Hpos : fgtb x (fconst 0) = true).
  { apply In_positive_entries in Hin. tauto. }
  assert (Hle : fgtb x (maxFlow c) = false).
  { apply Hall with (i := i) (j := j).
    unfold positive_entries in Hin. apply filter_In in Hin. tauto. }
  repeat split; try assumption.
  now apply gt_dominated with (x := x).
Qed.

(** The three-node diagram in exact arithmetic. *)
Lemma weight_quotients_are_safe_witness :
  Forall (fun xm : R * R =>
            fgtb (fst xm) (fconst 0) = true
            /\ snd xm = maxFlow three_nodes
            /\ fgtb (fst xm) (snd xm) = false
            /\ fgtb (snd xm) (fconst 0) = true)
    (weight_divs (log_of (Plot three_nodes (square_canvas 100)))).
Proof.
  exact (proj1 (@weight_quotients_are_safe R _ _ exact_order three_nodes
                  (square_canvas 100))).
Defined.

(** ** [maxFlow] is the largest positive entry *)

Lemma max_loop_result {F} {num : Float64 F} {order : Float64Order F}
    (l : list F) (m : F) :
  fold_left (fun m x => if fgtb x m then x else m) l m = m
  \/ (In (fold_left (fun m x => if fgtb x m then x else m) l m) l
      /\ fgtb (fold_left (fun m x => if fgtb x m then x else m) l m) m = true).
Proof.
  revert m. induction l as [| x l IH]; intros m; cbn [fold_left]; [now left |].
  destruct (fgtb x m) eqn:Hx.
  - destruct (IH x) as [-> | [Hin Hgt]].
    + right. split; [now left | exact Hx].
    + right. split; [now right | now apply gt_trans with (y := x)].
  - destruct (IH m) as [-> | [Hin Hgt]]; [now left |].
    right. split; [now right | exact Hgt].
Qed.

(** X7.  Whatever the shape and the values of the matrix (NaN included):
    no entry is above [maxFlow]; and either no entry is above 0 and [maxFlow]
    is 0, or [maxFlow] is itself an entry above 0.  This holds in binary64
    and in exact arithmetic. *)
Theorem maxFlow_is_maximum
    (F : Type) (num : Float64 F) (order : Float64Order F) (c : ChordDiagram F) :
  (forall i j x, In (i, j, x) (entries c) -> fgtb x (maxFlow c) = false)
  /\ ((positive_entries c = [] /\ maxFlow c = fconst 0)
      \/ exists i j, In (i, j, maxFlow c) (positive_entries c)).
Proof.
  destruct (maxFlow_dominates c) as [Hall Hnum].
  split; [exact Hall |].
  assert (Hres := max_loop_result (List.concat (Flow c)) (fconst 0)).
  rewrite <- fold_rows_concat in Hres. fold (maxFlow c) in Hres.
  destruct Hres as [Hzero | [Hin Hgt]].
  - left. split; [| exact Hzero].
    unfold positive_entries. apply filter_none.
    intros [[i j] x] Hx. cbn [snd]. rewrite <- Hzero. now apply Hall with i j.
  - right. apply In_concat_entries in Hin. destruct Hin as (i & j & Hin).
    exists i, j. unfold positive_entries. apply filter_In. now split.
Qed.

(** The three-node diagram in exact arithmetic. *)
Lemma maxFlow_is_maximum_witness :
  (positive_entries (three_nodes (F := R)) = []
   /\ maxFlow (three_nodes (F := R)) = fconst 0)
  \/ exists i j,
      In (i, j, maxFlow (three_nodes (F := R))) (positive_entries three_nodes).
Proof.
  exact (proj2 (@maxFlow_is_maximum R _ exact_order three_nodes)).
Defined.

(** ** [main]: the node numbering and the matrix *)

Lemma map_set_absent (m : NodeMap) k v :
  map_get m k = None -> map_set m k v = (k, v) :: m.
Proof.
  intros Hnone. unfold map_set. f_equal.
  induction m as [| [k' v'] m IH]; [reflexivity |].
  cbn [map_get] in Hnone. cbn [filter fst].
  destruct (String.eqb k' k); [discriminate |].
  cbn [negb]. now rewrite IH.
Qed.

Lemma nodes_agree_In (st : NodeMap * list string) k :
  nodes_agree st -> (In k (snd st) <-> exists i, map_get (fst st) k = Some i).
Proof.
  intros (Hget & _ & _). split.
  - intros Hin. apply In_nth_error in Hin. destruct Hin as [i Hi].
    exists i. now apply Hget.
  - intros [i Hi]. apply Hget in Hi. eapply nth_error_In; eassumption.
Qed.

Lemma add_node_agree (ip : string) (st : NodeMap * list string) :
  nodes_agree st ->
  nodes_agree (add_node ip st)
  /\ snd (add_node ip st)
     = if in_dec string_dec ip (snd st) then snd st else snd st ++ [ip].
Proof.
  intros Hst. assert (HIn := @nodes_agree_In st ip Hst).
  destruct st as [nodes names]. cbn [fst snd] in *.
  unfold add_node. destruct (map_get nodes ip) as [i |] eqn:Hip.
  - split; [exact Hst |]. cbn [snd].
    destruct (in_dec string_dec ip names) as [_ | Hn]; [reflexivity |].
    exfalso. apply Hn, HIn. now exists i.
  - assert (Hnotin : ~ In ip names).
    { intros Hin. apply HIn in Hin. destruct Hin as [i Hi]. congruence. }
    cbn [snd]. destruct (in_dec string_dec ip names) as [Hin | _];
      [contradiction |]. split; [| reflexivity].
    destruct Hst as (Hget & Hnodup & Hlen). cbn [fst snd] in *.
    rewrite (@map_set_absent nodes ip _ Hip). split; [| split].
    + intros k i. cbn [fst snd map_get]. unfold map_len in Hlen |- *. rewrite Hlen.
      destruct (String.eqb_spec ip k) as [<- | Hne].
      * split.
        -- intros H. inversion H; subst.
           rewrite nth_error_app2 by lia. now rewrite Nat.sub_diag.
        -- intros H. f_equal.
           destruct (Nat.lt_ge_cases i (List.length names)) as [Hlt | Hge].
           ++ rewrite nth_error_app1 in H by assumption.
              apply nth_error_In in H. contradiction.
           ++ assert (Hi : i < List.length (names ++ [ip])).
              { apply nth_error_Some. congruence. }
              rewrite length_app in Hi. simpl in Hi. lia.
      * rewrite Hget. split.
        -- intros H. rewrite nth_error_app1; [exact H |].
           apply nth_error_Some. congruence.
        -- intros H.
           destruct (Nat.lt_ge_cases i (List.length names)) as [Hlt | Hge].
           ++ now rewrite nth_error_app1 in H by assumption.
           ++ rewrite nth_error_app2 in H by assumption.
              destruct (i - List.length names) as [| d]; simpl in H.
              ** congruence.
              ** now destruct d.
    + cbn [snd]. apply NoDup_rev in Hnodup.
      rewrite <- (rev_involutive (names ++ [ip])). apply NoDup_rev.
      rewrite rev_app_distr. simpl. constructor; [| exact Hnodup].
      now rewrite <- in_rev.
    + cbn [fst snd]. unfold map_len in *. cbn [List.length].
      rewrite length_app, Hlen. simpl. lia.
Qed.

Lemma fold_left_flat_map {A B S} (f : S -> B -> S) (g : A -> list B) xs s :
  fold_left f (flat_map g xs) s
  = fold_left (fun s x => fold_left f (g x) s) xs s.
Proof.
  revert s. induction xs as [| x xs IH]; intros s; [reflexivity |].
  cbn [flat_map fold_left]. now rewrite fold_left_app, IH.
Qed.

Lemma fold_left_map {A B S} (f : S -> B -> S) (g : A -> B) xs s :
  fold_left f (map g xs) s = fold_left (fun s x => f s (g x)) xs s.
Proof.
  revert s. induction xs as [| x xs IH]; intros s; [reflexivity |].
  cbn [map fold_left]. now rewrite IH.
Qed.

Lemma fold_left_ext {A S} (f g : S -> A -> S) xs s :
  (forall s x, f s x = g s x) -> fold_left f xs s = fold_left g xs s.
Proof.
  intros Hfg. revert s. induction xs as [| x xs IH]; intros s; [reflexivity |].
  cbn [fold_left]. now rewrite Hfg, IH.
Qed.

Lemma index_nodes_keys {F} (buckets : list (SourceBucket F)) :
  index_nodes buckets
  = fold_left (fun st k => add_node k st) (keys_in_order buckets) ([], []).
Proof.
  unfold index_nodes, keys_in_order. rewrite fold_left_flat_map.
  apply fold_left_ext. intros st b. cbn [fold_left].
  now rewrite fold_left_map.
Qed.

Lemma first_occurrences_snoc (keys : list string) (k : string) :
  first_occurrences (keys ++ [k])
  = if in_dec string_dec k (first_occurrences keys)
    then first_occurrences keys
    else first_occurrences keys ++ [k].
Proof.
  unfold first_occurrences. rewrite rev_app_distr. cbn [rev app nodup].
  destruct (in_dec string_dec k (rev keys)) as [Hin | Hnotin];
    destruct (in_dec string_dec k (rev (nodup string_dec (rev keys))))
      as [Hin' | Hnotin']; try reflexivity; exfalso.
  - apply Hnotin'. rewrite <- in_rev. now apply nodup_In.
  - apply Hnotin. rewrite <- in_rev in Hin'. now apply nodup_In in Hin'.
Qed.

Lemma add_nodes_agree (keys prefix : list string) (st : NodeMap * list string) :
  nodes_agree st ->
  snd st = first_occurrences prefix ->
  nodes_agree (fold_left (fun st k => add_node k st) keys st)
  /\ snd (fold_left (fun st k => add_node k st) keys st)
     = first_occurrences (prefix ++ keys).
Proof.
  revert prefix st. induction keys as [| k keys IH]; intros prefix st Hst Hsnd.
  - rewrite app_nil_r. now split.
  - cbn [fold_left]. destruct (add_node_agree k Hst) as [Hst' Hsnd'].
    replace (prefix ++ k :: keys) with ((prefix ++ [k]) ++ keys)
      by now rewrite <- app_assoc.
    apply IH; [exact Hst' |].
    now rewrite Hsnd', first_occurrences_snoc, Hsnd.
Qed.

Lemma nodes_agree_nil : nodes_agree ([], []).
Proof.
  split; [| split]; [| constructor | reflexivity].
  intros k i. cbn [fst snd map_get]. split; [discriminate |].
  now destruct i.
Qed.

Lemma index_nodes_agree {F} (buckets : list (SourceBucket F)) :
  nodes_agree (index_nodes buckets)
  /\ snd (index_nodes buckets) = first_occurrences (keys_in_order buckets).
Proof.
  rewrite index_nodes_keys.
  apply (@add_nodes_agree (keys_in_order buckets) [] ([], []));
    [exact nodes_agree_nil | reflexivity].
Qed.

Lemma In_first_occurrences (keys : list string) k :
  In k (first_occurrences keys) <-> In k keys.
Proof.
  unfold first_occurrences. rewrite <- in_rev, nodup_In, <- in_rev. tauto.
Qed.

Lemma first_occurrences_length (keys : list string) :
  List.length (first_occurrences keys) <= List.length keys.
Proof.
  unfold first_occurrences. rewrite length_rev.
  rewrite <- (length_rev keys). generalize (rev keys) as l.
  induction l as [| x l IH]; [reflexivity |].
  cbn [nodup]. destruct (in_dec string_dec x l); simpl; lia.
Qed.

(** X8.  The node numbering of [main] (lines 298-316): [names] lists the
    addresses of the response, sources and destinations alike, each once, in
    the order of their first occurrence; [nodes] sends every address to its
    position in [names], so the two agree and have the same size; and there
    are at most as many nodes as bucket keys. *)
Theorem node_numbering (F : Type) (buckets : list (SourceBucket F)) :
  let nodes := fst (index_nodes buckets) in
  let names := snd (index_nodes buckets) in
  names = first_occurrences (keys_in_order buckets)
  /\ NoDup names
  /\ (forall ip, In ip names <-> In ip (keys_in_order buckets))
  /\ (forall ip i, map_get nodes ip = Some i <-> nth_error names i = Some ip)
  /\ map_len nodes = List.length names
  /\ List.length names <= List.length (keys_in_order buckets).
Proof.
  intros nodes names. subst nodes names.
  destruct (index_nodes_agree buckets) as [(Hget & Hnodup & Hlen) Hsnd].
  split; [exact Hsnd |]. split; [exact Hnodup |].
  split; [intros ip; rewrite Hsnd; apply In_first_occurrences |].
  split; [exact Hget |]. split; [exact Hlen |].
  rewrite Hsnd. apply first_occurrences_length.
Qed.

Lemma length_list_set {A} n (v : A) l :
  List.length (list_set n v l) = List.length l.
Proof.
  revert n. induction l as [| x l IH]; intros [| n]; simpl; auto.
Qed.

Lemma nth_error_list_set {A} n m (v : A) l :
  n < List.length l ->
  nth_error (list_set n v l) m = if n =? m then Some v else nth_error l m.
Proof.
  revert n m. induction l as [| x l IH]; intros n m Hn; [simpl in Hn; lia |].
  destruct n as [| n], m as [| m]; simpl; try reflexivity.
  apply IH. simpl in Hn. lia.
Qed.

Lemma Forall_list_set {A} (P : A -> Prop) n v l :
  P v -> Forall P l -> Forall P (list_set n v l).
Proof.
  intros Hv Hl. revert n. induction Hl as [| x l Hx Hl IH]; intros [| n]; simpl;
    constructor; auto.
Qed.

Lemma set_entry_run {F} (flow : list (list F)) n i j v :
  shape n flow -> i < n -> j < n ->
  exists flow',
    set_entry flow i j v = Done flow'
    /\ shape n flow'
    /\ forall i' j', entry flow' i' j'
                     = if (i =? i') && (j =? j') then Some v
                       else entry flow i' j'.
Proof.
  intros [Hlen Hrows] Hi Hj. unfold set_entry.
  destruct (nth_error flow i) as [row |] eqn:Hrow.
  2: { apply nth_error_None in Hrow. lia. }
  assert (Hrowlen : List.length row = n).
  { rewrite Forall_forall in Hrows. apply Hrows.
    eapply nth_error_In; eassumption. }
  rewrite Hrowlen. destruct (Nat.ltb_spec j n) as [_ | Hge]; [| lia].
  eexists. split; [reflexivity |]. split.
  - split; [now rewrite length_list_set |].
    apply Forall_list_set; [| exact Hrows].
    now rewrite length_list_set.
  - intros i' j'. unfold entry.
    rewrite nth_error_list_set by lia.
    destruct (Nat.eqb_spec i i') as [<- | Hne]; cbn [andb]; [| reflexivity].
    rewrite Hrow. apply nth_error_list_set. lia.
Qed.

Lemma ofold_app {A S} (xs ys : list A) (body : A -> S -> outcome S) s :
  ofold (xs ++ ys) body s = obind (ofold xs body s) (ofold ys body).
Proof.
  revert s. induction xs as [| x xs IH]; intros s; [reflexivity |].
  cbn [app ofold]. destruct (body x s) as [s' | p]; cbn [obind]; auto.
Qed.

Lemma ofold_map {A B S} (g : A -> B) xs (body : B -> S -> outcome S) s :
  ofold (map g xs) body s = ofold xs (fun x => body (g x)) s.
Proof.
  revert s. induction xs as [| x xs IH]; intros s; [reflexivity |].
  cbn [map ofold]. destruct (body (g x) s); cbn [obind]; auto.
Qed.

Lemma ofold_flat_map {A B S} (g : A -> list B) xs
    (body : B -> S -> outcome S) s :
  ofold (flat_map g xs) body s = ofold xs (fun x => ofold (g x) body) s.
Proof.
  revert s. induction xs as [| x xs IH]; intros s; [reflexivity |].
  cbn [flat_map ofold]. rewrite ofold_app.
  destruct (ofold (g x) body s); cbn [obind]; auto.
Qed.

(** The two loops of lines 324-338 as one loop over the flows. *)
Lemma fill_flow_flows {F} nodes (buckets : list (SourceBucket F)) flow :
  fill_flow nodes buckets flow
  = ofold (flows_in_order buckets)
      (fun f flow => set_entry flow (map_index nodes (fst (fst f)))
                       (map_index nodes (snd (fst f))) (snd f))
      flow.
Proof.
  unfold fill_flow, flows_in_order. rewrite ofold_flat_map.
  revert flow. induction buckets as [| b bs IH]; intros flow; [reflexivity |].
  cbn [ofold]. rewrite ofold_map. cbn [fst snd].
  destruct (ofold (destinations b) _ flow); cbn [obind]; auto.
Qed.

Lemma map_index_lt (st : NodeMap * list string) k :
  nodes_agree st -> In k (snd st) ->
  map_index (fst st) k < List.length (snd st)
  /\ nth_error (snd st) (map_index (fst st) k) = Some k.
Proof.
  intros Hst Hin. destruct (proj1 (@nodes_agree_In st k Hst) Hin) as [i Hi].
  unfold map_index. rewrite Hi. destruct Hst as (Hget & _ & _).
  apply Hget in Hi. split; [| exact Hi].
  apply nth_error_Some. congruence.
Qed.

Lemma map_index_inj (st : NodeMap * list string) k k' :
  nodes_agree st -> In k (snd st) -> In k' (snd st) ->
  map_index (fst st) k = map_index (fst st) k' -> k = k'.
Proof.
  intros Hst Hk Hk' Heq.
  destruct (map_index_lt k Hst Hk) as [_ H1].
  destruct (map_index_lt k' Hst Hk') as [_ H2].
  rewrite Heq in H1. congruence.
Qed.

Lemma fill_run {F} (st : NodeMap * list string)
    (flows : list (string * string * F)) :
  nodes_agree st ->
  forall flow,
  shape (List.length (snd st)) flow ->
  (forall s t v, In (s, t, v) flows -> In s (snd st) /\ In t (snd st)) ->
  exists flow',
    ofold flows
      (fun f flow => set_entry flow (map_index (fst st) (fst (fst f)))
                       (map_index (fst st) (snd (fst f))) (snd f))
      flow = Done flow'
    /\ shape (List.length (snd st)) flow'
    /\ forall s t, In s (snd st) -> In t (snd st) ->
         entry flow' (map_index (fst st) s) (map_index (fst st) t)
         = match last_bytes flows s t with
           | Some v => Some v
           | None => entry flow (map_index (fst st) s) (map_index (fst st) t)
           end.
Proof.
  intros Hst. induction flows as [| [[s' t'] v] flows IH]; intros flow Hshape Hin.
  - exists flow. now split.
  - cbn [ofold fst snd].
    destruct (Hin s' t' v (or_introl eq_refl)) as [Hs' Ht'].
    destruct (@set_entry_run F flow _ (map_index (fst st) s')
                (map_index (fst st) t') v Hshape)
      as (flow1 & Hset & Hshape1 & Hentry1).
    { apply (map_index_lt s' Hst Hs'). }
    { apply (map_index_lt t' Hst Ht'). }
    rewrite Hset. cbn [obind].
    destruct (IH flow1 Hshape1) as (flow' & Hrun & Hshape' & Hentry').
    { intros s t w H. apply (Hin s t w). now right. }
    exists flow'. split; [exact Hrun |]. split; [exact Hshape' |].
    intros s t Hs Ht. rewrite (Hentry' s t Hs Ht). cbn [last_bytes].
    destruct (last_bytes flows s t) as [w |]; [reflexivity |].
    rewrite Hentry1.
    destruct (String.eqb_spec s' s) as [-> | Hne].
    + rewrite Nat.eqb_refl. cbn [andb].
      destruct (String.eqb_spec t' t) as [-> | Hne'].
      * now rewrite Nat.eqb_refl.
      * destruct (Nat.eqb_spec (map_index (fst st) t') (map_index (fst st) t))
          as [Heq | _]; [| reflexivity].
        exfalso. apply Hne'. eapply map_index_inj; eassumption.
    + destruct (Nat.eqb_spec (map_index (fst st) s') (map_index (fst st) s))
        as [Heq | _]; [| reflexivity].
      exfalso. apply Hne. eapply map_index_inj; eassumption.
Qed.

Lemma zero_matrix_shape {F} `{Float64 F} n : shape n (zero_matrix n).
Proof.
  unfold shape, zero_matrix. split; [apply repeat_length |].
  apply Forall_forall. intros row Hrow. apply repeat_spec in Hrow. subst row.
  apply repeat_length.
Qed.

Lemma nth_error_repeat_lt {A} (x : A) n i :
  i < n -> nth_error (repeat x n) i = Some x.
Proof.
  revert i. induction n as [| n IH]; intros i Hi; [lia |].
  destruct i as [| i]; [reflexivity |]. simpl. apply IH. lia.
Qed.

Lemma zero_matrix_entry {F} `{Float64 F} n i j :
  i < n -> j < n -> entry (zero_matrix n) i j = Some (fconst 0).
Proof.
  intros Hi Hj. unfold entry, zero_matrix.
  rewrite (nth_error_repeat_lt _ Hi). now apply nth_error_repeat_lt.
Qed.

Lemma flows_keys {F} (buckets : list (SourceBucket F)) s t v :
  In (s, t, v) (flows_in_order buckets) ->
  In s (keys_in_order buckets) /\ In t (keys_in_order buckets).
Proof.
  unfold flows_in_order, keys_in_order. rewrite !in_flat_map.
  intros [b [Hb Hin]]. apply in_map_iff in Hin.
  destruct Hin as [d [Heq Hd]]. inversion Heq; subst.
  split; exists b; (split; [exact Hb |]).
  - now left.
  - right. now apply in_map.
Qed.

(** What [main] builds: the run of lines 298-338 in one statement. *)
Lemma main_diagram_run {F} `{Float64 F} (buckets : list (SourceBucket F)) :
  let names := first_occurrences (keys_in_order buckets) in
  exists flow,
    main_diagram buckets
    = Done {| Flow := flow;
              Labels := match names with [] => None | _ => Some names end;
              Color := main_Color |}
    /\ shape (List.length names) flow
    /\ forall i j s t,
         nth_error names i = Some s -> nth_error names j = Some t ->
         entry flow i j
         = Some match last_bytes (flows_in_order buckets) s t with
                | Some v => v
                | None => fconst 0
                end.
Proof.
  intros names. subst names.
  destruct (index_nodes_agree buckets) as [Hst Hsnd].
  unfold main_diagram.
  destruct (index_nodes buckets) as [nodes names] eqn:Hidx.
  rewrite fill_flow_flows. cbn [fst snd] in Hsnd. subst names.
  set (names := first_occurrences (keys_in_order buckets)) in *.
  assert (Hlen : map_len nodes = List.length names) by apply Hst.
  rewrite Hlen.
  destruct (@fill_run F (nodes, names) (flows_in_order buckets) Hst
              (zero_matrix (List.length names)))
    as (flow & Hrun & Hshape & Hentry).
  { apply zero_matrix_shape. }
  { intros s t v Hin. apply flows_keys in Hin. cbn [snd]. unfold names.
    now rewrite !In_first_occurrences. }
  cbn [fst snd] in Hrun, Hshape, Hentry.
  exists flow. rewrite Hrun. cbn [obind]. split; [reflexivity |].
  split; [exact Hshape |].
  intros i j s t Hi Hj.
  assert (Hs : In s names) by (eapply nth_error_In; eassumption).
  assert (Ht : In t names) by (eapply nth_error_In; eassumption).
  assert (Hgi : map_index nodes s = i).
  { unfold map_index. destruct Hst as (Hget & _ & _).
    apply Hget in Hi. cbn [fst] in Hi. now rewrite Hi. }
  assert (Hgj : map_index nodes t = j).
  { unfold map_index. destruct Hst as (Hget & _ & _).
    apply Hget in Hj. cbn [fst] in Hj. now rewrite Hj. }
  specialize (Hentry s t Hs Ht). rewrite Hgi, Hgj in Hentry.
  rewrite Hentry. destruct (last_bytes (flows_in_order buckets) s t);
    [reflexivity |].
  apply zero_matrix_entry; apply nth_error_Some; congruence.
Qed.

(** X9.  Whatever the buckets of the response, lines 298-338 of [main] end
    without an index panic and hand [Plot] a square matrix with one row per
    distinct address and, unless there is no address at all, exactly one
    label per row, the addresses themselves; on such a diagram [Plot] returns
    on every canvas, with the log of the closed form. *)
Theorem main_diagram_is_drawn (F : Type) (num : Float64 F) (trig : Trig F)
    (buckets : list (SourceBucket F)) :
  exists d,
    main_diagram buckets = Done d
    /\ List.length (Flow d)
       = List.length (first_occurrences (keys_in_order buckets))
    /\ square d
    /\ Labels d
       = match first_occurrences (keys_in_order buckets) with
         | [] => None
         | names => Some names
         end
    /\ labels_match d
    /\ forall canvas, Plot d canvas = (Plot_log d canvas, Done tt).
Proof.
  destruct (main_diagram_run buckets) as (flow & Hmain & [Hlen Hrows] & _).
  eexists. split; [exact Hmain |]. cbn [Flow Labels].
  assert (Hsq : square {| Flow := flow;
                          Labels := match first_occurrences (keys_in_order buckets) with
                                    | [] => None
                                    | _ :: _ => Some (first_occurrences (keys_in_order buckets))
                                    end;
                          Color := main_Color |}).
  { unfold square. cbn [Flow]. now rewrite Hlen. }
  assert (Hlm : labels_match {| Flow := flow;
                          Labels := match first_occurrences (keys_in_order buckets) with
                                    | [] => None
                                    | _ :: _ => Some (first_occurrences (keys_in_order buckets))
                                    end;
                          Color := main_Color |}).
  { unfold labels_match. cbn [Flow Labels].
    destruct (first_occurrences (keys_in_order buckets)); [exact I |].
    now rewrite Hlen. }
  split; [exact Hlen |]. split; [exact Hsq |].
  split; [now destruct (first_occurrences (keys_in_order buckets)) |].
  split; [exact Hlm |].
  intros canvas. apply Plot_run. right. split.
  - now apply square_rows_cover.
  - unfold labels_match in Hlm. unfold labels_cover.
    destruct (Labels _); [| exact I]. rewrite Hlm. apply Nat.le_refl.
Qed.

(** X10.  The matrix [main] builds: the entry in the row of address [s]
    and the column of address [t] is the bytes of the last flow from [s] to
    [t] in the response, and 0 where the response has no such flow. *)
Theorem main_diagram_entries (F : Type) (num : Float64 F)
    (buckets : list (SourceBucket F)) (d : ChordDiagram F)
    (i j : nat) (s t : string) :
  main_diagram buckets = Done d ->
  nth_error (first_occurrences (keys_in_order buckets)) i = Some s ->
  nth_error (first_occurrences (keys_in_order buckets)) j = Some t ->
  entry (Flow d) i j
  = Some match last_bytes (flows_in_order buckets) s t with
         | Some v => v
         | None => fconst 0
         end.
Proof.
  intros Hmain Hi Hj.
  destruct (main_diagram_run buckets) as (flow & Hmain' & _ & Hentry).
  rewrite Hmain' in Hmain. inversion Hmain; subst d. cbn [Flow].
  now apply Hentry.
Qed.

(** X11.  The chords of the diagram of [main]: the chord loop of [Plot]
    visits the pair of nodes [(i, j)] with value [x] exactly when the last
    flow of the response from the [i]-th address to the [j]-th one carries
    [x] bytes and [x > 0]; pairs the response does not mention get no
    chord. *)
Theorem main_chords (F : Type) (num : Float64 F) (order : Float64Order F)
    (buckets : list (SourceBucket F)) (d : ChordDiagram F)
    (i j : nat) (x : F) :
  main_diagram buckets = Done d ->
  (In (i, j, x) (positive_entries d) <->
   exists s t,
     nth_error (first_occurrences (keys_in_order buckets)) i = Some s
     /\ nth_error (first_occurrences (keys_in_order buckets)) j = Some t
     /\ last_bytes (flows_in_order buckets) s t = Some x
     /\ fgtb x (fconst 0) = true).
Proof.
  intros Hmain.
  destruct (main_diagram_run buckets) as (flow & Hmain' & [Hlen Hrows] & Hentry).
  rewrite Hmain' in Hmain. inversion Hmain; subst d. clear Hmain.
  rewrite In_positive_entries. cbn [Flow]. split.
  - intros [[row [Hrow Hx]] Hpos].
    assert (Hi : i < List.length (first_occurrences (keys_in_order buckets))).
    { rewrite <- Hlen. apply nth_error_Some. congruence. }
    assert (Hj : j < List.length (first_occurrences (keys_in_order buckets))).
    { rewrite Forall_forall in Hrows.
      rewrite <- (Hrows row) by (eapply nth_error_In; eassumption).
      apply nth_error_Some. congruence. }
    destruct (nth_error (first_occurrences (keys_in_order buckets)) i)
      as [s |] eqn:Hs; [| apply nth_error_None in Hs; lia].
    destruct (nth_error (first_occurrences (keys_in_order buckets)) j)
      as [t |] eqn:Ht; [| apply nth_error_None in Ht; lia].
    exists s, t. split; [reflexivity |]. split; [reflexivity |].
    specialize (Hentry i j s t Hs Ht). unfold entry in Hentry.
    rewrite Hrow, Hx in Hentry.
    destruct (last_bytes (flows_in_order buckets) s t) as [v |].
    + inversion Hentry; subst. now split.
    + inversion Hentry; subst. now rewrite gt_irrefl in Hpos.
  - intros (s & t & Hs & Ht & Hlast & Hpos). split; [| exact Hpos].
    specialize (Hentry i j s t Hs Ht). rewrite Hlast in Hentry.
    unfold entry in Hentry.
    destruct (nth_error flow i) as [row |]; [| discriminate].
    now exists row.
Qed.

Lemma main_diagram_entries_witness :
  main_diagram small_response = Done small_diagram
  /\ entry (Flow small_diagram) 0 2
     = Some match last_bytes (flows_in_order small_response)
                    "10.0.0.1" "10.0.0.3" with
            | Some v => v
            | None => fconst 0
            end.
Proof.
  split; [reflexivity |].
  apply (@main_diagram_entries float Binary64.binary64 small_response
           small_diagram 0 2 "10.0.0.1" "10.0.0.3"); reflexivity.
Defined.

Lemma main_chords_witness :
  In (1, 0, 50%float) (positive_entries small_diagram) <->
  exists s t,
    nth_error (first_occurrences (keys_in_order small_response)) 1 = Some s
    /\ nth_error (first_occurrences (keys_in_order small_response)) 0 = Some t
    /\ last_bytes (flows_in_order small_response) s t = Some 50%float
    /\ fgtb 50%float (fconst 0) = true.
Proof.
  apply (@main_chords float Binary64.binary64 binary64_order small_response
           small_diagram 1 0 50%float). reflexivity.
Defined.

(** ** [cidrToRange] *)

(** *** Bytes and big-endian numbers *)

Section Bytes.
Local Open Scope Z_scope.

Lemma byte_high_bits b i : is_byte b -> 8 <= i -> Z.testbit b i = false.
Proof.
  intros Hb Hi. rewrite <- (Z.mod_small b (2 ^ 8)) by (unfold is_byte in Hb; lia).
  apply Z.mod_pow2_bits_high. lia.
Qed.

Lemma is_byte_bits b :
  0 <= b -> (forall i, 8 <= i -> Z.testbit b i = false) -> is_byte b.
Proof.
  intros Hb Hbits. unfold is_byte. split; [exact Hb |].
  replace b with (b mod 2 ^ 8); [apply Z.mod_pos_bound; lia |].
  apply Z.bits_inj'. intros i Hi.
  destruct (Z.lt_ge_cases i 8) as [Hlt | Hge].
  - apply Z.mod_pow2_bits_low. lia.
  - rewrite Z.mod_pow2_bits_high by lia. symmetry. now apply Hbits.
Qed.

Lemma testbit_snoc a b i :
  is_byte b -> 0 <= i ->
  Z.testbit (a * 256 + b) i
  = if i <? 8 then Z.testbit b i else Z.testbit a (i - 8).
Proof.
  intros Hb Hi. unfold is_byte in Hb. destruct (Z.ltb_spec i 8) as [Hlt | Hge].
  - rewrite <- (Z.mod_pow2_bits_low (a * 256 + b) 8 i) by lia.
    change (2 ^ 8) with 256. rewrite Z.add_comm, Z.mod_add by lia.
    now rewrite Z.mod_small by lia.
  - replace i with ((i - 8) + 8) at 1 by lia.
    rewrite <- Z.div_pow2_bits by lia. change (2 ^ 8) with 256.
    rewrite Z.add_comm, Z.div_add by lia.
    now rewrite Z.div_small by lia.
Qed.

Lemma is_byte_lor b b' : is_byte b -> is_byte b' -> is_byte (Z.lor b b').
Proof.
  intros Hb Hb'. apply is_byte_bits.
  - apply Z.lor_nonneg. unfold is_byte in *. lia.
  - intros i Hi. rewrite Z.lor_spec.
    now rewrite (byte_high_bits Hb Hi), (byte_high_bits Hb' Hi).
Qed.

Lemma is_byte_land b b' : is_byte b -> is_byte b' -> is_byte (Z.land b b').
Proof.
  intros Hb Hb'. apply is_byte_bits.
  - apply Z.land_nonneg. unfold is_byte in *. lia.
  - intros i Hi. rewrite Z.land_spec.
    now rewrite (byte_high_bits Hb Hi).
Qed.

Lemma lor_snoc a a' b b' :
  is_byte b -> is_byte b' ->
  Z.lor (a * 256 + b) (a' * 256 + b') = Z.lor a a' * 256 + Z.lor b b'.
Proof.
  intros Hb Hb'. apply Z.bits_inj'. intros i Hi.
  rewrite Z.lor_spec, !testbit_snoc by auto using is_byte_lor.
  destruct (i <? 8); now rewrite Z.lor_spec.
Qed.

Lemma land_snoc a a' b b' :
  is_byte b -> is_byte b' ->
  Z.land (a * 256 + b) (a' * 256 + b') = Z.land a a' * 256 + Z.land b b'.
Proof.
  intros Hb Hb'. apply Z.bits_inj'. intros i Hi.
  rewrite Z.land_spec, !testbit_snoc by auto using is_byte_land.
  destruct (i <? 8); now rewrite Z.land_spec.
Qed.

Lemma byte_not_sub b : is_byte b -> byte_not b = 255 - b.
Proof.
  intros Hb. unfold byte_not.
  assert (Hdisj : Z.land (Z.lxor b 255) b = 0).
  { apply Z.bits_inj'. intros i Hi.
    rewrite Z.land_spec, Z.lxor_spec, Z.bits_0.
    destruct (Z.lt_ge_cases i 8) as [Hlt | Hge].
    - change 255 with (Z.ones 8). rewrite Z.ones_spec_low by lia.
      now destruct (Z.testbit b i).
    - rewrite (byte_high_bits Hb Hge). apply andb_false_r. }
  apply Z.add_nocarry_lxor in Hdisj.
  rewrite (Z.lxor_comm b 255) in *.
  rewrite Z.lxor_assoc, Z.lxor_nilpotent, Z.lxor_0_r in Hdisj. lia.
Qed.

Lemma is_byte_not b : is_byte b -> is_byte (byte_not b).
Proof.
  intros Hb. rewrite (byte_not_sub Hb). unfold is_byte in *. lia.
Qed.

End Bytes.

Section BigEndian.
Local Open Scope Z_scope.

Lemma be_lor (bs ms : list Z) (acc acc' : Z) :
  List.length bs = List.length ms -> Forall is_byte bs -> Forall is_byte ms ->
  fold_left be_step (map (fun p => Z.lor (fst p) (snd p)) (combine bs ms))
    (Z.lor acc acc')
  = Z.lor (fold_left be_step bs acc) (fold_left be_step ms acc').
Proof.
  revert ms acc acc'. induction bs as [| b bs IH]; intros [| m ms] acc acc' Hlen Hb Hm;
    try discriminate Hlen; [reflexivity |].
  inversion Hb; inversion Hm; subst. cbn [combine map fold_left fst snd].
  replace (be_step (Z.lor acc acc') (Z.lor b m))
    with (Z.lor (be_step acc b) (be_step acc' m))
    by (unfold be_step; apply lor_snoc; assumption).
  apply IH; auto.
Qed.

Lemma be_land (bs ms : list Z) (acc acc' : Z) :
  List.length bs = List.length ms -> Forall is_byte bs -> Forall is_byte ms ->
  fold_left be_step (map (fun p => Z.land (fst p) (snd p)) (combine bs ms))
    (Z.land acc acc')
  = Z.land (fold_left be_step bs acc) (fold_left be_step ms acc').
Proof.
  revert ms acc acc'. induction bs as [| b bs IH]; intros [| m ms] acc acc' Hlen Hb Hm;
    try discriminate Hlen; [reflexivity |].
  inversion Hb; inversion Hm; subst. cbn [combine map fold_left fst snd].
  replace (be_step (Z.land acc acc') (Z.land b m))
    with (Z.land (be_step acc b) (be_step acc' m))
    by (unfold be_step; apply land_snoc; assumption).
  apply IH; auto.
Qed.

Lemma be_not (ms : list Z) (acc k : Z) :
  0 <= k -> Forall is_byte ms ->
  fold_left be_step (map byte_not ms) (2 ^ k - 1 - acc)
  = 2 ^ (k + 8 * Z.of_nat (List.length ms)) - 1 - fold_left be_step ms acc.
Proof.
  revert acc k. induction ms as [| m ms IH]; intros acc k Hk Hm.
  - cbn [map fold_left List.length]. now rewrite Z.add_0_r.
  - inversion Hm; subst. cbn [map fold_left].
    rewrite byte_not_sub by assumption.
    replace (be_step (2 ^ k - 1 - acc) (255 - m))
      with (2 ^ (k + 8) - 1 - be_step acc m)
      by (unfold be_step; rewrite Z.pow_add_r by lia; change (2 ^ 8) with 256; lia).
    rewrite IH by (auto; lia). f_equal. f_equal. f_equal.
    cbn [List.length]. lia.
Qed.

Lemma be_bounds (bs : list Z) (acc k : Z) :
  0 <= k -> 0 <= acc < 2 ^ k -> Forall is_byte bs ->
  0 <= fold_left be_step bs acc < 2 ^ (k + 8 * Z.of_nat (List.length bs)).
Proof.
  revert acc k. induction bs as [| b bs IH]; intros acc k Hk Hacc Hb.
  - cbn [fold_left List.length]. now rewrite Z.add_0_r.
  - inversion Hb as [| ? ? Hb0 Hbs]; subst. cbn [fold_left].
    replace (k + 8 * Z.of_nat (List.length (b :: bs)))
      with ((k + 8) + 8 * Z.of_nat (List.length bs))
      by (cbn [List.length]; lia).
    apply IH; [lia | | exact Hbs].
    unfold be_step. rewrite Z.pow_add_r by lia. change (2 ^ 8) with 256.
    unfold is_byte in Hb0. lia.
Qed.

Lemma be_inj (xs ys : list Z) (acc acc' : Z) :
  List.length xs = List.length ys -> Forall is_byte xs -> Forall is_byte ys ->
  fold_left be_step xs acc = fold_left be_step ys acc' ->
  xs = ys /\ acc = acc'.
Proof.
  revert ys acc acc'. induction xs as [| x xs IH]; intros [| y ys] acc acc' Hlen Hx Hy Heq;
    try discriminate Hlen.
  - now split.
  - inversion Hx; inversion Hy; subst. cbn [fold_left] in Heq.
    destruct (IH ys (be_step acc x) (be_step acc' y)) as [-> Hstep]; auto.
    unfold be_step, is_byte in *.
    assert (acc = acc' /\ x = y) as [-> ->] by lia. now split.
Qed.

Lemma be_value_lor (bs ms : list Z) :
  List.length bs = List.length ms -> Forall is_byte bs -> Forall is_byte ms ->
  be_value (map (fun p => Z.lor (fst p) (snd p)) (combine bs ms))
  = Z.lor (be_value bs) (be_value ms).
Proof. intros. unfold be_value. now apply (@be_lor bs ms 0 0). Qed.

Lemma be_value_land (bs ms : list Z) :
  List.length bs = List.length ms -> Forall is_byte bs -> Forall is_byte ms ->
  be_value (map (fun p => Z.land (fst p) (snd p)) (combine bs ms))
  = Z.land (be_value bs) (be_value ms).
Proof. intros. unfold be_value. now apply (@be_land bs ms 0 0). Qed.

Lemma be_value_not (ms : list Z) :
  Forall is_byte ms ->
  be_value (map byte_not ms)
  = 2 ^ (8 * Z.of_nat (List.length ms)) - 1 - be_value ms.
Proof.
  intros Hm. unfold be_value.
  change (fold_left be_step (map byte_not ms) 0)
    with (fold_left be_step (map byte_not ms) (2 ^ 0 - 1 - 0)).
  rewrite (@be_not ms 0 0) by (auto; lia). now rewrite Z.add_0_l.
Qed.

Lemma be_value_bounds (bs : list Z) :
  Forall is_byte bs ->
  0 <= be_value bs < 2 ^ (8 * Z.of_nat (List.length bs)).
Proof.
  intros Hb. unfold be_value.
  apply (@be_bounds bs 0 0); [lia | simpl; lia | exact Hb].
Qed.

Lemma be_value_inj (xs ys : list Z) :
  List.length xs = List.length ys -> Forall is_byte xs -> Forall is_byte ys ->
  be_value xs = be_value ys -> xs = ys.
Proof.
  intros Hlen Hx Hy Heq. now apply (@be_inj xs ys 0 0).
Qed.

(** Setting the host bits of a number whose host bits are clear. *)
Lemma lor_host_bits (n h : Z) :
  0 <= h -> n mod 2 ^ h = 0 -> Z.lor n (2 ^ h - 1) = n + 2 ^ h - 1.
Proof.
  intros Hh Hn.
  assert (Hdisj : Z.land n (Z.ones h) = 0) by now rewrite Z.land_ones.
  rewrite Z.ones_equiv in Hdisj. unfold Z.pred in Hdisj.
  replace (2 ^ h - 1) with (2 ^ h + -1) by lia.
  rewrite <- (Z.lxor_lor _ _ Hdisj), <- (Z.add_nocarry_lxor _ _ Hdisj). lia.
Qed.

(** Clearing the host bits of a number below [2 ^ N]. *)
Lemma land_prefix_mask (a N h : Z) :
  0 <= h <= N -> 0 <= a < 2 ^ N ->
  Z.land a (2 ^ N - 2 ^ h) = a - a mod 2 ^ h.
Proof.
  intros Hh Ha.
  replace (a - a mod 2 ^ h) with (a / 2 ^ h * 2 ^ h)
    by (pose proof (Z.div_mod a (2 ^ h)); lia).
  replace (2 ^ N - 2 ^ h) with (Z.ones (N - h) * 2 ^ h).
  2: { rewrite Z.ones_equiv. unfold Z.pred.
       replace N with ((N - h) + h) at 2 by lia.
       rewrite Z.pow_add_r by lia. lia. }
  apply Z.bits_inj'. intros i Hi. rewrite Z.land_spec.
  destruct (Z.lt_ge_cases i h) as [Hlt | Hge].
  - rewrite !Z.mul_pow2_bits_low by lia. apply andb_false_r.
  - replace i with (h + (i - h)) at 2 3 by lia.
    rewrite !Z.mul_pow2_bits_add by lia.
    rewrite Z.div_pow2_bits by lia.
    replace (i - h + h) with i by lia.
    destruct (Z.lt_ge_cases i N) as [HltN | HgeN].
    + rewrite Z.ones_spec_low by lia. apply andb_true_r.
    + rewrite Z.ones_spec_high by lia.
      rewrite <- (Z.mod_small a (2 ^ N)) by lia.
      now rewrite Z.mod_pow2_bits_high by lia.
Qed.

(** The numbers that agree with a multiple of [2 ^ h] above the host bits. *)
Lemma block_interval (a n h : Z) :
  0 <= h -> n mod 2 ^ h = 0 ->
  (a - a mod 2 ^ h = n <-> n <= a <= n + 2 ^ h - 1).
Proof.
  intros Hh Hn.
  assert (Hpos : 0 < 2 ^ h) by (apply Z.pow_pos_nonneg; lia).
  pose proof (Z.mod_pos_bound a (2 ^ h) Hpos) as Hr. split.
  - intros <-. lia.
  - intros Ha.
    assert (Hmod : a - n = a mod 2 ^ h).
    { apply Z.mod_unique with (q := n / 2 ^ h); [left; lia |].
      pose proof (Z.div_mod n (2 ^ h)). lia. }
    lia.
Qed.

End BigEndian.

(** *** The loop of [cidrToRange] *)

Lemma list_set_middle {A} (done rest : list A) (x v : A) :
  list_set (List.length done) v (done ++ x :: rest) = done ++ v :: rest.
Proof.
  induction done as [| d done IH]; [reflexivity |].
  cbn [List.length app list_set]. now rewrite IH.
Qed.

Lemma nth_error_middle {A} (done rest : list A) (x : A) :
  nth_error (done ++ x :: rest) (List.length done) = Some x.
Proof.
  rewrite nth_error_app2 by apply Nat.le_refl. now rewrite Nat.sub_diag.
Qed.

Lemma skipn_nth_error {A} (l : list A) n x :
  nth_error l n = Some x -> skipn n l = x :: skipn (Datatypes.S n) l.
Proof.
  revert n. induction l as [| y l IH]; intros [| n] H; try discriminate H.
  - now inversion H.
  - cbn [skipn]. now apply IH.
Qed.

(** The loop of lines 30-32 after [length done] rounds. *)
Lemma broadcast_rounds (mask done rest : list Z) :
  List.length done + List.length rest <= List.length mask ->
  ofold (seq (List.length done) (List.length rest))
    (fun i broadcast =>
       match nth_error broadcast i with
       | None => Panic (IndexOutOfRange i (List.length broadcast))
       | Some b =>
           match nth_error mask i with
           | None => Panic (IndexOutOfRange i (List.length mask))
           | Some m => Done (list_set i (Z.lor b (byte_not m)) broadcast)
           end
       end)
    (done ++ rest)
  = Done (done ++ map (fun bm => Z.lor (fst bm) (byte_not (snd bm)))
                    (combine rest (skipn (List.length done) mask))).
Proof.
  revert done. induction rest as [| b rest IH]; intros done Hlen.
  - reflexivity.
  - cbn [List.length seq ofold]. rewrite nth_error_middle.
    destruct (nth_error mask (List.length done)) as [m |] eqn:Hm.
    2: { apply nth_error_None in Hm. cbn [List.length] in Hlen. lia. }
    cbn [obind]. rewrite list_set_middle, (skipn_nth_error _ _ Hm).
    cbn [combine map fst snd].
    replace (done ++ Z.lor b (byte_not m) :: rest)
      with ((done ++ [Z.lor b (byte_not m)]) ++ rest)
      by now rewrite <- app_assoc.
    replace (Datatypes.S (List.length done))
      with (List.length (done ++ [Z.lor b (byte_not m)]))
      by (rewrite length_app; simpl; lia).
    rewrite IH.
    + now rewrite <- app_assoc.
    + rewrite length_app. cbn [List.length] in *. lia.
Qed.

Lemma broadcast_loop_run (mask network : list Z) :
  List.length network <= List.length mask ->
  broadcast_loop mask network
  = Done (map (fun bm => Z.lor (fst bm) (byte_not (snd bm)))
            (combine network mask)).
Proof.
  intros Hlen. unfold broadcast_loop, upto.
  apply (@broadcast_rounds mask [] network). exact Hlen.
Qed.

Lemma combine_map_r {A B C} (f : B -> C) (xs : list A) (ys : list B) :
  combine xs (map f ys) = map (fun p => (fst p, f (snd p))) (combine xs ys).
Proof.
  revert ys. induction xs as [| x xs IH]; intros [| y ys]; try reflexivity.
  cbn [map combine fst snd]. now rewrite IH.
Qed.

Lemma Forall_map_combine {A B C} (P : C -> Prop) (Q : A -> Prop) (R : B -> Prop)
    (f : A * B -> C) xs ys :
  (forall x y, Q x -> R y -> P (f (x, y))) ->
  Forall Q xs -> Forall R ys -> Forall P (map f (combine xs ys)).
Proof.
  intros Hf Hx. revert ys. induction Hx as [| x xs Hx Hxs IH]; intros ys Hy.
  - constructor.
  - destruct Hy as [| y ys Hy Hys]; [constructor |].
    cbn [combine map]. constructor; auto.
Qed.

(** The broadcast address of a network as [net.ParseCIDR] returns it. *)
Lemma broadcast_of_prefix_network (h : Z) (ipNet : IPNet) :
  is_prefix_network h ipNet ->
  exists broadcast,
    broadcast_loop (Mask ipNet) (IP ipNet) = Done broadcast
    /\ List.length broadcast = List.length (IP ipNet)
    /\ Forall is_byte broadcast
    /\ be_value broadcast = (be_value (IP ipNet) + 2 ^ h - 1)%Z.
Proof.
  intros (Hlen & Hip & Hmask & Hh & Hval & Hclear).
  eexists. split; [apply broadcast_loop_run; lia |]. split; [| split].
  - rewrite length_map, length_combine. lia.
  - apply Forall_map_combine with (Q := is_byte) (R := is_byte); auto.
    intros x y Hx Hy. cbn [fst snd]. apply is_byte_lor; [exact Hx |].
    now apply is_byte_not.
  - replace (map (fun bm => Z.lor (fst bm) (byte_not (snd bm)))
               (combine (IP ipNet) (Mask ipNet)))
      with (map (fun p => Z.lor (fst p) (snd p))
              (combine (IP ipNet) (map byte_not (Mask ipNet))))
      by (rewrite combine_map_r, map_map; reflexivity).
    rewrite be_value_lor.
    + rewrite be_value_not, Hval, Hlen by assumption.
      replace (2 ^ (8 * Z.of_nat (List.length (IP ipNet))) - 1
               - (2 ^ (8 * Z.of_nat (List.length (IP ipNet))) - 2 ^ h))%Z
        with (2 ^ h - 1)%Z by lia.
      apply lor_host_bits; [lia | exact Hclear].
    + rewrite length_map. lia.
    + exact Hip.
    + clear -Hmask. induction Hmask; constructor; auto using is_byte_not.
Qed.

(** Checks [is_prefix_network] on a closed network by evaluation. *)
Ltac prefix_network_by_evaluation :=
  unfold is_prefix_network;
  repeat match goal with
         | |- (_ <= _ <= _)%Z => cbn; lia
         | |- _ /\ _ => split
         | |- Forall _ _ => repeat constructor; unfold is_byte; lia
         | |- _ => reflexivity
         end.

(** X12.  [cidrToRange] on a block that [net.ParseCIDR] accepts: the call
    returns (no panic, no exit) the rendering of the network address and of
    the address that stands, as a big-endian number, [2 ^ host_bits - 1]
    above it: the network address with every host bit set.  This covers IPv4
    and IPv6 and the prefixes [/0] and full length. *)
Theorem cidrToRange_broadcast
    (ParseCIDR : string -> option IPNet) (IP_String : list Z -> string)
    (cidr : string) (ipNet : IPNet) (host_bits : Z) :
  ParseCIDR cidr = Some ipNet ->
  is_prefix_network host_bits ipNet ->
  exists broadcast,
    cidrToRange ParseCIDR IP_String cidr
    = Returns (IP_String (IP ipNet), IP_String broadcast)
    /\ List.length broadcast = List.length (IP ipNet)
    /\ Forall is_byte broadcast
    /\ be_value broadcast = (be_value (IP ipNet) + 2 ^ host_bits - 1)%Z.
Proof.
  intros Hparse Hnet.
  destruct (broadcast_of_prefix_network Hnet) as (broadcast & Hrun & Hrest).
  exists broadcast. split; [| exact Hrest].
  unfold cidrToRange. now rewrite Hparse, Hrun.
Qed.

(** The block [192.168.16.0/20], 12 host bits. *)
Lemma cidrToRange_broadcast_witness :
  exists broadcast,
    cidrToRange parse_office dotted "192.168.16.0/20"
    = Returns (dotted (IP office_network), dotted broadcast)
    /\ List.length broadcast = List.length (IP office_network)
    /\ Forall is_byte broadcast
    /\ be_value broadcast = (be_value (IP office_network) + 2 ^ 12 - 1)%Z.
Proof.
  apply (@cidrToRange_broadcast parse_office dotted "192.168.16.0/20"
           office_network 12); [reflexivity | prefix_network_by_evaluation].
Defined.

(** X13.  The two addresses [cidrToRange] returns bound exactly the block:
    an address of the family of the network lies between them, as a
    big-endian number, exactly when it agrees with the network under the
    mask (what [IPNet.Contains] tests).  So the inclusive range [main] puts
    in the query selects the block and nothing else. *)
Theorem cidrToRange_block
    (ParseCIDR : string -> option IPNet) (IP_String : list Z -> string)
    (cidr : string) (ipNet : IPNet) (host_bits : Z) :
  ParseCIDR cidr = Some ipNet ->
  is_prefix_network host_bits ipNet ->
  exists broadcast,
    cidrToRange ParseCIDR IP_String cidr
    = Returns (IP_String (IP ipNet), IP_String broadcast)
    /\ forall ip,
         List.length ip = List.length (IP ipNet) -> Forall is_byte ip ->
         (in_network ipNet ip
          <-> (be_value (IP ipNet) <= be_value ip <= be_value broadcast)%Z).
Proof.
  intros Hparse Hnet.
  destruct (broadcast_of_prefix_network Hnet)
    as (broadcast & Hrun & _ & _ & Hbc).
  exists broadcast. split; [unfold cidrToRange; now rewrite Hparse, Hrun |].
  destruct Hnet as (Hlen & Hip & Hmask & Hh & Hval & Hclear).
  intros ip Hiplen Hipb. rewrite Hbc. unfold in_network.
  pose proof (be_value_bounds Hip) as Hnb.
  pose proof (be_value_bounds Hipb) as Hab. rewrite Hiplen in Hab.
  rewrite <- (@block_interval (be_value ip) (be_value (IP ipNet)) host_bits)
    by (lia || exact Hclear).
  rewrite <- (@land_prefix_mask (be_value ip)
                (8 * Z.of_nat (List.length (IP ipNet))) host_bits) by lia.
  rewrite <- Hval, <- be_value_land by (assumption || lia).
  assert (Hnetland :
    be_value (map (fun nm => Z.land (fst nm) (snd nm))
                (combine (IP ipNet) (Mask ipNet)))
    = be_value (IP ipNet)).
  { rewrite be_value_land by (assumption || lia). rewrite Hval.
    rewrite land_prefix_mask by lia. rewrite Hclear. lia. }
  split.
  - intros ->. exact Hnetland.
  - intros Heq. rewrite <- Hnetland in Heq.
    apply be_value_inj in Heq; [exact Heq | | |].
    + rewrite !length_map, !length_combine. lia.
    + apply Forall_map_combine with (Q := is_byte) (R := is_byte); auto.
      intros x y Hx Hy. now apply is_byte_land.
    + apply Forall_map_combine with (Q := is_byte) (R := is_byte); auto.
      intros x y Hx Hy. now apply is_byte_land.
Qed.

Lemma cidrToRange_block_witness :
  exists broadcast,
    cidrToRange parse_office dotted "192.168.16.0/20"
    = Returns (dotted (IP office_network), dotted broadcast)
    /\ forall ip,
         List.length ip = List.length (IP office_network) ->
         Forall is_byte ip ->
         (in_network office_network ip
          <-> (be_value (IP office_network) <= be_value ip
               <= be_value broadcast)%Z).
Proof.
  apply (@cidrToRange_block parse_office dotted "192.168.16.0/20"
           office_network 12); [reflexivity | prefix_network_by_evaluation].
Defined.

(** ** Flows in both directions *)

(** X14.  When two nodes send to each other, the two chords are stroked
    along the same curve: the path of the chord from [j] to [i] is the path of
    the chord from [i] to [j] run backwards, with the same end points and the
    same control points in the other order.  This holds in every arithmetic,
    binary64 included, because both calls of [drawChord] evaluate the same
    expressions. *)
Theorem opposite_flows_share_curve
    (F : Type) (num : Float64 F) (trig : Trig F)
    (c : ChordDiagram F) (canvas : Canvas F) (i j : nat) (x y : F) :
  square c -> labels_cover c ->
  entry (Flow c) i j = Some x -> entry (Flow c) j i = Some y ->
  fgtb x (fconst 0) = true -> fgtb y (fconst 0) = true ->
  exists p a b q,
    chord_path canvas (List.length (Flow c)) i j
    = [MoveComp p; CurveComp a b q]
    /\ chord_path canvas (List.length (Flow c)) j i
       = [MoveComp q; CurveComp b a p]
    /\ In (Stroke (chord_path canvas (List.length (Flow c)) i j))
          (draw_ops (log_of (Plot c canvas)))
    /\ In (Stroke (chord_path canvas (List.length (Flow c)) j i))
          (draw_ops (log_of (Plot c canvas))).
Proof.
  intros Hsq Hlab Hx Hy Hxpos Hypos.
  assert (Hin : forall i j x,
             entry (Flow c) i j = Some x -> fgtb x (fconst 0) = true ->
             In (Stroke (chord_path canvas (List.length (Flow c)) i j))
                (draw_ops (log_of (Plot c canvas)))).
  { intros i' j' x' Hx' Hpos'. unfold entry in Hx'.
    destruct (nth_error (Flow c) i') as [row |] eqn:Hrow; [| discriminate Hx'].
    rewrite (Plot_run canvas (or_intror (conj (square_rows_cover Hsq) Hlab))).
    simpl log_of. rewrite draw_ops_Plot_log. apply in_or_app. right.
    apply in_flat_map. exists (i', j', x'). split.
    - apply In_positive_entries. split; [| exact Hpos']. now exists row.
    - unfold chord_ops. cbn [fst snd]. right. right. left. reflexivity. }
  eexists _, _, _, _.
  split; [unfold chord_path; reflexivity |].
  split; [unfold chord_path; reflexivity |].
  split; [exact (Hin i j x Hx Hxpos) | exact (Hin j i y Hy Hypos)].
Qed.

(** Two nodes, 100 one way and 50 the other, in exact arithmetic. *)
Lemma opposite_flows_share_curve_witness :
  exists p a b q,
    chord_path (square_canvas 100) (List.length (Flow two_way)) 0 1
    = [MoveComp p; CurveComp a b q]
    /\ chord_path (square_canvas 100) (List.length (Flow two_way)) 1 0
       = [MoveComp q; CurveComp b a p]
    /\ In (Stroke (chord_path (square_canvas 100) (List.length (Flow two_way)) 0 1))
          (draw_ops (log_of (Plot two_way (square_canvas 100))))
    /\ In (Stroke (chord_path (square_canvas 100) (List.length (Flow two_way)) 1 0))
          (draw_ops (log_of (Plot two_way (square_canvas 100)))).
Proof.
  apply (@opposite_flows_share_curve R _ _ two_way (square_canvas 100) 0 1
           100%R 50%R).
  - repeat constructor.
  - exact I.
  - reflexivity.
  - reflexivity.
  - change (fgtb 100%R (fconst 0)) with (Exact.Rltb (Q2R 0) 100).
    apply Rltb_true. rewrite Q2R_zero. lra.
  - change (fgtb 50%R (fconst 0)) with (Exact.Rltb (Q2R 0) 50).
    apply Rltb_true. rewrite Q2R_zero. lra.
Defined.
